(** * seung-lab/open-source: ConveyorBelt, Thinking and Conditional

    A shallow embedding of the repository's JavaScript helpers and
    the properties of them that the specification states:

    - [ConveyorBelt]  (src/js/ConveyorBelt.js)  the throttled task queue;
    - [Thinking]      (Thinking.js)             the idle timer;
    - [Conditional]   (src/js/Conditional.js)   the condition aggregator;
    - [Attention]     (Attention.js)            its callback registry.

    Conventions.  A JavaScript array is a [list] whose head is index 0, so
    [push] appends at the end and [pop] takes from the end.  [null] in an
    array slot is [None].  Numbers that the code only ever uses as
    non-negative integers (indices, counters, lengths) are [nat]; numbers
    that come from the caller are [Z] (or [Q] for the decimation factor).
    A timer handle is a [positive]: browsers hand out handles that are
    never 0, which is what the truthiness tests on them rely on. *)

From Stdlib Require Import ZArith QArith Qround Lia.
From stdpp Require Import base list gmap strings.

Local Open Scope nat_scope.

(** ** ConveyorBelt.js *)

Module ConveyorBelt.

(** What an array slot of [this.queue] can hold: a function handed to
    [add] by the caller, or the no-op [function () {}] that [decimate]
    writes. *)
Inductive fn (A : Type) : Type :=
  | User (a : A)
  | Noop.
Arguments User {A} a.
Arguments Noop {A}.

(** [speed]: a number of milliseconds or the string ['immediate']. *)
Inductive speed_t : Type :=
  | Immediate
  | Msec (ms : Z).

Definition is_immediate (sp : speed_t) : bool :=
  match sp with Immediate => true | Msec _ => false end.

(** The fields of a [ConveyorBelt.ConveyorBelt] object. *)
Record belt (A : Type) : Type := Belt {
  queue : list (option (fn A));
  speed : speed_t;
  timerid : option positive;
  active : bool
}.
Arguments Belt {A} queue speed timerid active.
Arguments queue {A} b.
Arguments speed {A} b.
Arguments timerid {A} b.
Arguments active {A} b.

(** The host's table of recurring timers: the handles that [setInterval]
    has returned and [clearInterval] has not yet cancelled, and the next
    handle it will hand out. *)
Record host : Type := Host {
  intervals : gset positive;
  fresh : positive
}.

Definition setInterval (h : host) : positive * host :=
  (fresh h, Host ({[fresh h]} ∪ intervals h) (fresh h + 1)%positive).

Definition clearInterval (id : option positive) (h : host) : host :=
  match id with
  | Some t => Host (intervals h ∖ {[t]}) (fresh h)
  | None => h
  end.

(** The whole state a method call can see or change: the belt object, the
    host's timers, and the world [env] that the queued functions act on. *)
Record sys (A W : Type) : Type := Sys {
  this : belt A;
  timers : host;
  env : W
}.
Arguments Sys {A W} this timers env.
Arguments this {A W} s.
Arguments timers {A W} s.
Arguments env {A W} s.

(** A call either returns or throws (a [TypeError], when [fn] is not
    callable); both leave a state behind. *)
Inductive outcome (A W : Type) : Type :=
  | Done (s : sys A W)
  | Thrown (s : sys A W).
Arguments Done {A W} s.
Arguments Thrown {A W} s.

Definition state_of {A W} (o : outcome A W) : sys A W :=
  match o with Done s => s | Thrown s => s end.

Definition returns {A W} (o : outcome A W) : bool :=
  match o with Done _ => true | Thrown _ => false end.

(** [Array.prototype.pop]: the last element and the array without it, or
    [None] for [undefined] on an empty array. *)
Definition pop {X} (q : list X) : option (list X * X) :=
  match reverse q with
  | [] => None
  | x :: r => Some (reverse r, x)
  end.

(** [Array.prototype.slice(0, n)] for an integer [n]: a negative [n] counts
    from the end. *)
Definition slice0 {X} (q : list X) (n : Z) : list X :=
  let len := Z.of_nat (length q) in
  let stop := if (n <? 0)%Z then Z.max (len + n) 0 else Z.min n len in
  take (Z.to_nat stop) q.

(** JavaScript truthiness of a slot: functions are truthy, [null] is not. *)
Definition truthy {X} (v : option (option X)) : bool :=
  match v with Some (Some _) => true | _ => false end.

Section Methods.

Context {A W : Type}.

(** [run a w]: the effect on the world of calling the user's function [a].
    The queued functions are taken not to call back into the belt. *)
Variable run : A → W → W.

Local Abbreviation sys := (sys A W).
Local Abbreviation outcome := (outcome A W).

Definition set_queue (q : list (option (fn A))) (s : sys) : sys :=
  Sys (Belt q (speed (this s)) (timerid (this s)) (active (this s)))
      (timers s) (env s).

Definition set_speed (sp : speed_t) (s : sys) : sys :=
  Sys (Belt (queue (this s)) sp (timerid (this s)) (active (this s)))
      (timers s) (env s).

Definition set_timerid (t : option positive) (s : sys) : sys :=
  Sys (Belt (queue (this s)) (speed (this s)) t (active (this s)))
      (timers s) (env s).

Definition set_active (a : bool) (s : sys) : sys :=
  Sys (Belt (queue (this s)) (speed (this s)) (timerid (this s)) a)
      (timers s) (env s).

Definition set_timers (h : host) (s : sys) : sys :=
  Sys (this s) h (env s).

Definition set_env (w : W) (s : sys) : sys :=
  Sys (this s) (timers s) w.

(** [fn()] for the value stored in a slot. *)
Definition call (v : option (fn A)) (s : sys) : outcome :=
  match v with
  | Some (User a) => Done (set_env (run a (env s)) s)
  | Some Noop => Done s
  | None => Thrown s
  end.

(** [var fn = this.queue.pop(); fn();] *)
Definition pop_call (s : sys) : outcome :=
  match pop (queue (this s)) with
  | Some (q, v) => call v (set_queue q s)
  | None => Thrown s
  end.

(** The body of [burn]'s [for] loop, run [count] times. *)
Fixpoint burn_loop (count : nat) (s : sys) : outcome :=
  match count with
  | O => Done s
  | S c =>
      match pop_call s with
      | Done s' => burn_loop c s'
      | Thrown s' => Thrown s'
      end
  end.

(** [burn(amount)], for an integer [amount] or none. *)
Definition burn (amount : option Z) (s : sys) : outcome :=
  let len := Z.of_nat (length (queue (this s))) in
  let amount := match amount with Some n => n | None => len end in
  let limit := Z.min amount len in
  burn_loop (Z.to_nat limit) s.

Definition stop (s : sys) : sys :=
  let s := set_active false s in
  match timerid (this s) with
  | Some t => set_timerid None (set_timers (clearInterval (Some t) (timers s)) s)
  | None => s
  end.

Definition schedule (s : sys) : sys :=
  let '(t, h) := setInterval (timers s) in
  set_timerid (Some t) (set_timers h s).

Definition start (sp : option speed_t) (s : sys) : outcome :=
  let s := stop s in
  let s := set_active true s in
  let s := match sp with Some v => set_speed v s | None => s end in
  if is_immediate (speed (this s))
  then burn None (set_timerid None s)
  else Done (schedule s).

(** [new ConveyorBelt.ConveyorBelt(speed)] on a host [h] and world [w]. *)
Definition create (sp : speed_t) (h : host) (w : W) : outcome :=
  start None (Sys (Belt [] sp None false) h w).

Definition add (f : fn A) (s : sys) : outcome :=
  let s := set_queue (queue (this s) ++ [Some f]) s in
  if negb (active (this s)) then Done s
  else if is_immediate (speed (this s)) then burn None s
  else match timerid (this s) with
       | None => Done (schedule s)
       | Some _ => Done s
       end.

Definition process (s : sys) : outcome :=
  if negb (is_immediate (speed (this s))) && (length (queue (this s)) =? 0)
  then Done (set_timerid None
               (set_timers (clearInterval (timerid (this s)) (timers s)) s))
  else pop_call s.

Definition flush (amount : option Z) (s : sys) : sys :=
  match amount with
  | None => set_queue [] s
  | Some n => set_queue (slice0 (queue (this s)) n) s
  end.

(** *** Sequences of calls *)

(** The calls a client (or, for [Process], the interval timer) makes. *)
Inductive op : Type :=
  | Add (f : fn A)
  | Process
  | Start (sp : option speed_t)
  | Stop
  | Flush (amount : option Z)
  | Burn (amount : option Z).

Definition step (o : op) (s : sys) : outcome :=
  match o with
  | Add f => add f s
  | Process => process s
  | Start sp => start sp s
  | Stop => Done (stop s)
  | Flush n => Done (flush n s)
  | Burn n => burn n s
  end.

(** A sequence of calls; an exception goes to the caller and the next call
    finds the state the failed one left. *)
Fixpoint steps (ops : list op) (s : sys) : sys :=
  match ops with
  | [] => s
  | o :: ops' => steps ops' (state_of (step o s))
  end.

(** The same, also recording what the most recent [process] call found:
    [Some true] for a non-empty queue, [Some false] for an empty one, and
    [None] while [process] has not been called. *)
Fixpoint observe (ops : list op) (s : sys) (check : option bool)
    : sys * option bool :=
  match ops with
  | [] => (s, check)
  | o :: ops' =>
      observe ops' (state_of (step o s))
        (match o with
         | Process => Some (negb (length (queue (this s)) =? 0))
         | _ => check
         end)
  end.

(** *** Notions used to state what the methods do *)

(** The effect on the world of calling a function of the queue. *)
Definition effect (f : fn A) (w : W) : W :=
  match f with
  | User a => run a w
  | Noop => w
  end.

(** The effect of calling the functions of [fs] from first to last. *)
Definition effects (fs : list (fn A)) (w : W) : W :=
  foldl (λ w f, effect f w) w fs.

(** The belt owns the host's timers: the host has exactly the interval
    that [timerid] names, or none. *)
Definition owns_timer (s : sys) : Prop :=
  intervals (timers s) =
    match timerid (this s) with Some t => {[t]} | None => ∅ end.

(** A scheduled timer means an active belt with a duration speed. *)
Definition timer_implies_running (s : sys) : Prop :=
  ∀ t, timerid (this s) = Some t →
       active (this s) = true ∧ is_immediate (speed (this s)) = false.

(** The specification's reading of the timer: [timerid] is non-null only
    while the belt is active, the speed is a duration, and the most recent
    [process] call found the queue non-empty. *)
Definition timer_only_after_nonempty_check
    (s : sys) (check : option bool) : Prop :=
  timerid (this s) ≠ None →
  active (this s) = true ∧ is_immediate (speed (this s)) = false ∧
  check = Some true.

(** [s'] differs from [s] at most in the queue and the world. *)
Definition same_control (s s' : sys) : Prop :=
  speed (this s') = speed (this s) ∧
  timerid (this s') = timerid (this s) ∧
  active (this s') = active (this s) ∧
  timers s' = timers s.

Definition timer_inv (s : sys) : Prop :=
  owns_timer s ∧ timer_implies_running s.

End Methods.

(** A world that records the calls made: the queued function [n] appends
    [n] to the log. *)
Definition log (n : nat) (w : list nat) : list nat := w ++ [n].

(** [x] was called, and later [y] was. *)
Definition called_before (x y : nat) (w : list nat) : Prop :=
  ∃ l1 l2 l3, w = l1 ++ x :: l2 ++ y :: l3.

(** *** decimate *)

(** Modelled from the spec: [Utils.cutoff], which the file calls and the
    repository does not include here.  The specification says the factor is
    "clamped to [0,1]", so [cutoff x lo hi] is [x] brought into [lo, hi]. *)
Definition cutoff (x lo hi : Q) : Q :=
  if Qle_bool x lo then lo else if Qle_bool hi x then hi else x.

(** [Math.round]: the nearest integer, halves rounded up. *)
Definition Math_round (x : Q) : Z := Qfloor (x + (1 # 2)).

(** [Math.round(this.queue.length * factor)] after the clamp.  The product
    is taken in the rationals; at the factors 0 and 1 this is what the
    double-precision product gives as well. *)
Definition reduction_of (len : nat) (factor : Q) : nat :=
  Z.to_nat (Math_round (inject_Z (Z.of_nat len) * cutoff factor 0 1)).

Section Decimate.

Context {A : Type}.

Local Abbreviation slot := (option (fn A)).

(** The [while (reduction > 0)] loop.  [fuel] bounds the number of times
    the loop condition is tested; [None] means the fuel ran out with the
    loop still running.  [q] is [this.queue], updated in place. *)
Fixpoint decimate_loop (fuel : nat) (q : list slot)
    (i loop increment reduction : nat) : option (list slot) :=
  match fuel with
  | O => None
  | S fuel' =>
      if reduction =? 0 then Some q
      else
        let i := (i + increment) mod length q in
        if i =? length q - 1
        then decimate_loop fuel' q i loop increment reduction
        else
          let marked := truthy (q !! i) in
          let q' := if marked then <[i := None]> q else q in
          let reduction := if marked then reduction - 1 else reduction in
          let loop := loop + 1 in
          let increment :=
            if loop mod length q =? 0
            then (if 1 <? increment then increment - 1 else 1)
            else increment in
          decimate_loop fuel' q' i loop increment reduction
  end.

(** The clean-up [for] loop over the indices [n - 1], ..., [0]. *)
Fixpoint cleanup (n : nat) (q : list slot) : list slot :=
  match n with
  | O => q
  | S i =>
      cleanup i (match q !! i with
                 | Some None => <[i := Some Noop]> q
                 | _ => q
                 end)
  end.

(** [decimate] once [reduction] is known.  When [reduction] is 0 the
    JavaScript [increment] is [Infinity] and is never used, the loop being
    skipped; here it is the 0 of [Nat.div]. *)
Definition decimate_by (fuel : nat) (reduction : nat) (q : list slot)
    : option (list slot) :=
  if length q <=? 1 then Some q
  else
    let increment := length q / reduction in
    match decimate_loop fuel q 0 0 increment reduction with
    | Some q' => Some (cleanup (length q' - 1) q')
    | None => None
    end.

Definition decimate_queue (fuel : nat) (factor : Q) (q : list slot)
    : option (list slot) :=
  decimate_by fuel (reduction_of (length q) factor) q.

Definition decimate {W} (fuel : nat) (factor : Q) (s : sys A W)
    : option (sys A W) :=
  match decimate_queue fuel factor (queue (this s)) with
  | Some q =>
      Some (Sys (Belt q (speed (this s)) (timerid (this s)) (active (this s)))
                (timers s) (env s))
  | None => None
  end.

(** Notions used to state what [decimate] does. *)

(** The number of slots that hold a function. *)
Fixpoint functions (q : list slot) : nat :=
  match q with
  | [] => 0
  | Some _ :: r => S (functions r)
  | None :: r => functions r
  end.

(** The slots the scan may mark: all but the last. *)
Definition unprotected (q : list slot) : list slot := take (length q - 1) q.

(** Whether a slot holds [null]. *)
Definition is_null (v : option slot) : bool :=
  match v with Some None => true | _ => false end.

(** [q'] comes from [q] by writing [null] into unprotected slots. *)
Definition marked_from (q q' : list slot) : Prop :=
  length q' = length q ∧
  ∀ j, q' !! j = q !! j ∨ (j < length q - 1 ∧ q' !! j = Some None).

(** The number of slots that hold the no-op, and the number that hold
    [null]. *)
Fixpoint noops (q : list slot) : nat :=
  match q with
  | [] => 0
  | Some Noop :: r => S (noops r)
  | _ :: r => noops r
  end.

Fixpoint nulls (q : list slot) : nat :=
  match q with
  | [] => 0
  | None :: r => S (nulls r)
  | Some _ :: r => nulls r
  end.

(** What the clean-up loop makes of a slot it visits. *)
Definition swept (v : slot) : slot :=
  match v with None => Some Noop | Some f => Some f end.

End Decimate.

End ConveyorBelt.

(** ** Thinking.js *)

Module Thinking.

(** The value of [data('thinking')] when present. *)
Inductive status : Type :=
  | StActive
  | StIdle.

(** The jQuery data of the subject that the plugin reads and writes; a key
    that is absent is [None]. *)
Record data : Type := Data {
  thinking : option status;
  lastreset : option Z;
  outstanding : option (list positive)
}.

(** The [options] argument, each key present or not, and the [settings]
    that [$.extend({}, $.fn.thinking.defaults, options)] makes of it.  The
    event specifier is kept as the list of its event names. *)
Record options : Type := Options {
  opt_idle : option Z;
  opt_events : option (list string)
}.

Record settings : Type := Settings {
  idle : Z;
  events : list string
}.

Definition defaults : settings :=
  Settings 1500 ["keydown"; "keypress"; "mousedown"]%string.

Definition extend (d : settings) (o : options) : settings :=
  Settings (default (idle d) (opt_idle o)) (default (events d) (opt_events o)).

(** One call of [startThinking]: its settings and its variable [timerid],
    which the handler it installs reads and writes. *)
Record listener : Type := Listener {
  config : settings;
  timerid : option positive
}.

(** The subject, the host's clock and one-shot timers, and the times at
    which ['thinking'] was triggered on the subject. *)
Record sys : Type := Sys {
  now : Z;
  timeouts : list (positive * Z);
  fresh : positive;
  store : data;
  listeners : list listener;
  fired : list Z
}.

(** A subject nothing has been done to, at time [t]. *)
Definition untouched (t : Z) : sys :=
  Sys t [] 1 (Data None None None) [] [].

Definition set_store (d : data) (s : sys) : sys :=
  Sys (now s) (timeouts s) (fresh s) d (listeners s) (fired s).

Definition set_listeners (ls : list listener) (s : sys) : sys :=
  Sys (now s) (timeouts s) (fresh s) (store s) ls (fired s).

(** [setTimeout(callback, delay)]; every timer of the plugin has the same
    callback, so a pending timer is its handle and the time it is due.  A
    negative delay counts as 0. *)
Definition setTimeout (delay : Z) (s : sys) : positive * sys :=
  (fresh s,
   Sys (now s) (timeouts s ++ [(fresh s, now s + Z.max 0 delay)%Z])
       (fresh s + 1)%positive (store s) (listeners s) (fired s)).

Definition clearTimeout (id : positive) (s : sys) : sys :=
  Sys (now s) (filter (λ p, p.1 ≠ id) (timeouts s))
      (fresh s) (store s) (listeners s) (fired s).

(** The inner function [timeout] of [startThinking]. *)
Definition timeout (cfg : settings) (s : sys) : positive * sys :=
  let '(id, s) := setTimeout (idle cfg) s in
  let ids := default [] (outstanding (store s)) in
  (id, set_store (Data (thinking (store s)) (lastreset (store s))
                       (Some (ids ++ [id]))) s).

(** The inner function [resetTimeout] of [startThinking]. *)
Definition resetTimeout (id : option positive) (cfg : settings) (s : sys)
    : positive * sys :=
  let s :=
    match id with
    | Some t =>
        let s := clearTimeout t s in
        let ids := default [] (outstanding (store s)) in
        set_store (Data (thinking (store s)) (lastreset (store s))
                        (Some (filter (λ x, x ≠ t) ids))) s
    | None => s
    end in
  let s := set_store (Data (Some StActive) (lastreset (store s))
                           (outstanding (store s))) s in
  let s := set_store (Data (thinking (store s)) (Some (now s))
                           (outstanding (store s))) s in
  timeout cfg s.

(** [startThinking] on a one-element selector: it installs the handler and
    does nothing else.  The namespace [.thinking-trigger] that it appends
    to the event names serves their removal and is left out: it does not
    change which events the handler hears. *)
Definition startThinking (o : options) (s : sys) : sys :=
  set_listeners (listeners s ++ [Listener (extend defaults o) None]) s.

(** The event [ev] on the subject: the handlers of the listeners that
    listen to it run in the order of their installation. *)
Fixpoint dispatch (ev : string) (ls : list listener) (s : sys)
    : list listener * sys :=
  match ls with
  | [] => ([], s)
  | l :: ls' =>
      if bool_decide (ev ∈ events (config l))
      then
        let '(id, s) := resetTimeout (timerid l) (config l) s in
        let '(ls'', s) := dispatch ev ls' s in
        (Listener (config l) (Some id) :: ls'', s)
      else
        let '(ls'', s) := dispatch ev ls' s in
        (l :: ls'', s)
  end.

Definition activity (ev : string) (s : sys) : sys :=
  let '(ls, s) := dispatch ev (listeners s) s in
  set_listeners ls s.

(** The pending timer that is due first, the earlier-set one on a tie. *)
Fixpoint earliest (l : list (positive * Z)) : option (positive * Z) :=
  match l with
  | [] => None
  | p :: r =>
      match earliest r with
      | Some p' => if (p'.2 <? p.2)%Z then Some p' else Some p
      | None => Some p
      end
  end.

(** A timer goes off: the callback marks the subject idle and triggers
    ['thinking']. *)
Definition fire (p : positive * Z) (s : sys) : sys :=
  let t := Z.max (now s) (p.2) in
  Sys t (filter (λ x, x.1 ≠ p.1) (timeouts s)) (fresh s)
      (Data (Some StIdle) (lastreset (store s)) (outstanding (store s)))
      (listeners s) (fired s ++ [t]).

Fixpoint fire_due (n : nat) (t : Z) (s : sys) : sys :=
  match n with
  | O => s
  | S n' =>
      match earliest (timeouts s) with
      | Some p => if (p.2 <=? t)%Z then fire_due n' t (fire p s) else s
      | None => s
      end
  end.

(** The clock reaches [t]: the timers due by then go off, in the order
    they are due, and then it is [t]. *)
Definition advance (t : Z) (s : sys) : sys :=
  let s := fire_due (length (timeouts s)) t s in
  Sys (Z.max (now s) t) (timeouts s) (fresh s) (store s) (listeners s)
      (fired s).

(** The event [ev] happens [gap] milliseconds from now, for each gap of
    the list in turn. *)
Fixpoint play (ev : string) (gaps : list nat) (s : sys) : sys :=
  match gaps with
  | [] => s
  | g :: r => play ev r (activity ev (advance (now s + Z.of_nat g) s))
  end.

Definition cancelThinking (s : sys) : sys :=
  let ids := default [] (outstanding (store s)) in
  let s := foldr clearTimeout s ids in
  set_store (Data (thinking (store s)) None None) s.

Definition doneThinking (s : sys) : sys :=
  let s := cancelThinking s in
  let s := set_listeners [] s in
  set_store (Data None (lastreset (store s)) (outstanding (store s))) s.

(** What the commands ['running'] and ['elapsed'] return. *)
Definition running (s : sys) : bool :=
  match thinking (store s) with Some StActive => true | _ => false end.

Inductive number : Type :=
  | Num (z : Z)
  | NaN
  | Undefined.

Definition elapsed (s : sys) : number :=
  if running s
  then match lastreset (store s) with
       | Some t => Num (now s - t)
       | None => NaN
       end
  else Undefined.

(** Every pending timer is the one the listener [l] holds. *)
Definition all_current (l : listener) (s : sys) : Prop :=
  ∀ p, p ∈ timeouts s → timerid l = Some (p.1).

(** *** namespaceEvents *)

Import Stdlib.Strings.Ascii.

(** A JavaScript string is the list of its characters; the strings here
    are ASCII. *)
Definition str (s : string) : list ascii := String.list_ascii_of_string s.

(** [\s] on ASCII: tab, line feed, vertical tab, form feed, carriage
    return and space. *)
Definition is_space (c : ascii) : bool := stdpp.strings.Ascii.is_space c.

Fixpoint trim_left (s : list ascii) : list ascii :=
  match s with
  | [] => []
  | c :: r => if is_space c then trim_left r else s
  end.

(** [$.trim]. *)
Definition trim (s : list ascii) : list ascii :=
  reverse (trim_left (reverse (trim_left s))).

Fixpoint is_prefix (p s : list ascii) : bool :=
  match p, s with
  | [], _ => true
  | a :: p', b :: s' => Ascii.eqb a b && is_prefix p' s'
  | _ :: _, [] => false
  end.

(** [s.replace(/\.thinking(-trigger)?/g, '')]: from left to right, every
    [.thinking], with the [-trigger] that follows it if one does, is left
    out.  [skip] is the number of characters of a match still to pass. *)
Fixpoint strip (skip : nat) (s : list ascii) : list ascii :=
  match s with
  | [] => []
  | c :: r =>
      match skip with
      | S k => strip k r
      | O =>
          if is_prefix (str ".thinking-trigger") s then strip 16 r
          else if is_prefix (str ".thinking") s then strip 8 r
          else c :: strip 0 r
      end
  end.

(** [s.split(/\s+/)]: the pieces between the runs of white space, an empty
    piece before a leading run and after a trailing one.  [in_run] says
    that the character before was white space. *)
Fixpoint split_spaces (in_run : bool) (s : list ascii) : list (list ascii) :=
  match s with
  | [] => [[]]
  | c :: r =>
      if is_space c
      then (if in_run then split_spaces true r else [] :: split_spaces true r)
      else match split_spaces false r with
           | w :: ws => (c :: w) :: ws
           | [] => [[c]]
           end
  end.

Definition namespaceEvents (specifier : list ascii) : list ascii :=
  let specifier := trim specifier in
  match specifier with
  | [] => []
  | _ =>
      let specifiers := split_spaces false (strip 0 specifier) in
      trim (foldl (λ acc item, acc ++ item ++ str ".thinking-trigger ")
                  [] specifiers)
  end.

(** Event names put one space apart. *)
Fixpoint spaced (ws : list (list ascii)) : list ascii :=
  match ws with
  | [] => []
  | [w] => w
  | w :: r => w ++ " "%char :: spaced r
  end.

(** A plain event name: not empty, no white space and no dot in it. *)
Definition plain (w : list ascii) : Prop :=
  w ≠ [] ∧ Forall (λ c, is_space c = false ∧ c ≠ "."%char) w.

(** *** Sequences of calls *)

(** What can happen to a subject: a [startThinking], an event on it, the
    clock reaching a time, a [cancelThinking] and a [doneThinking]. *)
Inductive call : Type :=
  | DoStart (o : options)
  | DoEvent (ev : string)
  | DoClock (t : Z)
  | DoCancel
  | DoDone.

Definition perform (c : call) (s : sys) : sys :=
  match c with
  | DoStart o => startThinking o s
  | DoEvent ev => activity ev s
  | DoClock t => advance t s
  | DoCancel => cancelThinking s
  | DoDone => doneThinking s
  end.

Fixpoint performs (cs : list call) (s : sys) : sys :=
  match cs with
  | [] => s
  | c :: cs' => performs cs' (perform c s)
  end.

(** Every pending timer is listed in [data('thinking.outstanding')]. *)
Definition tracked (s : sys) : Prop :=
  ∀ p, p ∈ timeouts s → p.1 ∈ default [] (outstanding (store s)).

End Thinking.

(** ** Conditional.js *)

Module Conditional.

(** The JavaScript values a condition can hold. *)
Inductive value : Type :=
  | VBool (b : bool)
  | VNum (z : Z)
  | VStr (s : string)
  | VNull
  | VUndefined.

Definition truthy (v : value) : bool :=
  match v with
  | VBool b => b
  | VNum z => negb (z =? 0)%Z
  | VStr s => negb (String.length s =? 0)
  | VNull => false
  | VUndefined => false
  end.

(** [a && b], [a || b] and [!a]: the first two return one of their
    operands. *)
Definition js_and (a b : value) : value := if truthy a then b else a.
Definition js_or (a b : value) : value := if truthy a then a else b.
Definition js_not (a : value) : value := VBool (negb (truthy a)).

(** An object used as a map from names to values, in the order of its
    keys. *)
Definition object : Type := list (string * value).

Definition Object_keys (o : object) : list string := o.*1.

(** [o[key]]. *)
Fixpoint get (o : object) (key : string) : value :=
  match o with
  | [] => VUndefined
  | (k, v) :: r => if bool_decide (k = key) then v else get r key
  end.

Definition values_of (conds : object) : list value :=
  (λ key, get conds key) <$> Object_keys conds.

(** [values.reduce(f, init)]. *)
Definition reduce (f : value → value → value) (init : value)
    (values : list value) : value :=
  foldl f init values.

Definition xor (conds data : object) : value :=
  reduce (λ a b, js_and (js_not (js_and a b)) (js_or a b)) (VBool true)
         (values_of conds).

Definition and (conds data : object) : value :=
  reduce js_and (VBool true) (values_of conds).

Definition nand (conds data : object) : value := js_not (and conds data).

Definition or (conds data : object) : value :=
  reduce js_or (VBool true) (values_of conds).

Definition nor (conds data : object) : value := js_not (or conds data).

(** *** The Conditional object *)

(** [o[key] = v]: an existing key keeps its place, a new one goes last.
    (Names are taken not to be array indices, which JavaScript would list
    first.) *)
Fixpoint set_prop (o : object) (key : string) (v : value) : object :=
  match o with
  | [] => [(key, v)]
  | (k, x) :: r =>
      if bool_decide (k = key) then (k, v) :: r
      else (k, x) :: set_prop r key v
  end.

(** [delete o[key]]. *)
Definition delete_prop (o : object) (key : string) : object :=
  filter (λ p, p.1 ≠ key) o.

(** How many of the values are truthy. *)
Definition truthy_count (values : list value) : nat :=
  length (List.filter truthy values).

Section Object.

(** The world the callbacks act on.  A callback gets the conditions and
    the data and is taken not to change either. *)
Context {W : Type}.

Definition callback : Type := object → object → W → W.

Definition noop : callback := λ _ _ w, w.

Record conditional : Type := Cond {
  conds : object;
  failure : callback;
  success : callback;
  test : object → object → value;
  data : object
}.

(** The argument of the constructor, each key present or not. *)
Record args : Type := Args {
  arg_set : option object;
  arg_failure : option callback;
  arg_success : option callback;
  arg_test : option (object → object → value);
  arg_data : option object
}.

(** [new Conditional.Conditional(args)]. *)
Definition create (a : args) : conditional :=
  Cond (default [] (arg_set a))
       (default noop (arg_failure a))
       (default noop (arg_success a))
       (default and (arg_test a))
       (default [] (arg_data a)).


(** [execute]: the boolean it returns and what the callback it calls
    does. *)
Definition execute (c : conditional) (w : W) : bool * W :=
  if truthy (test c (conds c) (data c))
  then (true, success c (conds c) (data c) w)
  else (false, failure c (conds c) (data c) w).

(** [lazySet(name, value, data)]; an argument left out is [undefined]. *)
Definition lazySet (name : string) (v d : value) (c : conditional)
    : conditional :=
  Cond (set_prop (conds c) name (js_or v (VBool false)))
       (failure c) (success c) (test c)
       (set_prop (data c) name
                 (match d with VUndefined => VNull | _ => d end)).

Definition set (name : string) (v d : value) (c : conditional) (w : W)
    : conditional * W :=
  let c := lazySet name v d c in
  (c, (execute c w).2).

Definition lazyRemove (name : string) (c : conditional) : conditional :=
  Cond (delete_prop (conds c) name)
       (failure c) (success c) (test c)
       (delete_prop (data c) name).

Definition remove (name : string) (c : conditional) (w : W)
    : conditional * W :=
  let c := lazyRemove name c in
  (c, (execute c w).2).

End Object.

End Conditional.

(** ** Attention.js: the callback registry *)

Module Attention.

(** [this.callbacks]: for each action name the array of the functions
    registered for it.  Functions are compared by identity, so a function
    is a number here.  (Action names are taken not to be properties that
    every JavaScript object inherits.) *)
Definition on (action : string) (fn : nat) (callbacks : gmap string (list nat))
    : gmap string (list nat) :=
  <[action := default [] (callbacks !! action) ++ [fn]]> callbacks.

(** [off(action, fn)]; [fn] left out is [None]. *)
Definition off (action : string) (fn : option nat)
    (callbacks : gmap string (list nat)) : gmap string (list nat) :=
  match callbacks !! action with
  | None => callbacks
  | Some l =>
      match fn with
      | Some f => <[action := filter (λ elem, elem ≠ f) l]> callbacks
      | None => <[action := []]> callbacks
      end
  end.

(** The functions that [show] or [dismiss] would call for an action:
    [this.callbacks[action] || []]. *)
Definition registered (callbacks : gmap string (list nat)) (action : string)
    : list nat :=
  default [] (callbacks !! action).

End Attention.

(** * Properties *)

Module ConveyorBeltProps.

Import ConveyorBelt.

(** ** decimate *)

(** ** burn, flush and add *)

Section MethodFacts.

Context {A W : Type} (run : A → W → W).

Local Abbreviation sys := (sys A W).

Lemma pop_snoc {X} (q : list X) (x : X) : pop (q ++ [x]) = Some (q, x).
Proof. unfold pop. rewrite reverse_snoc, reverse_involutive. reflexivity. Qed.

Lemma pop_nil {X} : pop (@nil X) = None.
Proof. reflexivity. Qed.

(** Running the loop of [burn] [c] times on a queue of at least [c]
    functions calls the last [c] of them, last first, and leaves the rest. *)
Lemma burn_loop_functions (c : nat) :
  ∀ (fs : list (fn A)) sp t a h (w : W),
    c ≤ length fs →
    burn_loop run c (Sys (Belt (Some <$> fs) sp t a) h w) =
      Done (Sys (Belt (Some <$> take (length fs - c) fs) sp t a) h
                (effects run (take c (reverse fs)) w)).
Proof.
  induction c as [|c IH]; intros fs sp t a h w Hc.
  - simpl. rewrite Nat.sub_0_r, take_ge by lia. reflexivity.
  - destruct (decide (fs = [])) as [->|Hne]; [simpl in Hc; lia|].
    destruct (exists_last Hne) as (fs' & f & ->).
    rewrite length_app in Hc |- *. simpl in Hc |- *.
    unfold pop_call. cbn [this queue]. rewrite fmap_app. cbn [fmap list_fmap].
    rewrite pop_snoc. unfold set_queue. cbn [this queue speed timerid active timers env].
    rewrite reverse_snoc. cbn [take].
    replace (length fs' + 1 - S c) with (length fs' - c) by lia.
    rewrite take_app_le by lia.
    destruct f as [u|]; unfold call, set_env;
      cbn [this timers env]; rewrite IH by lia; reflexivity.
Qed.

Lemma burn_all (fs : list (fn A)) sp t a h (w : W) :
  burn run None (Sys (Belt (Some <$> fs) sp t a) h w) =
    Done (Sys (Belt [] sp t a) h (effects run (reverse fs) w)).
Proof.
  unfold burn. cbn [this queue]. rewrite Z.min_id, Nat2Z.id, length_fmap.
  rewrite burn_loop_functions by lia.
  rewrite Nat.sub_diag, take_0, take_ge by (rewrite length_reverse; lia).
  reflexivity.
Qed.

(** C7.  On a queue of [len] functions, [burn(n)] returns having called
    exactly [min(n, len)] of them, the most recently added first, and
    having removed those from the queue; [burn()] calls them all, again
    last first, and leaves the queue empty. *)
Theorem burn_lifo (n : nat) (fs : list (fn A)) sp t a h (w : W) :
  let s := Sys (Belt (Some <$> fs) sp t a) h w in
  let m := n `min` length fs in
  burn run (Some (Z.of_nat n)) s =
    Done (Sys (Belt (Some <$> take (length fs - m) fs) sp t a) h
              (effects run (take m (reverse fs)) w)) ∧
  length (take m (reverse fs)) = m ∧
  burn run None s = Done (Sys (Belt [] sp t a) h (effects run (reverse fs) w)).
Proof.
  intros s m. split; [|split].
  - unfold burn, s. cbn [this queue]. rewrite length_fmap.
    rewrite <- Nat2Z.inj_min, Nat2Z.id. fold m.
    apply burn_loop_functions. lia.
  - rewrite length_take, length_reverse. lia.
  - apply burn_all.
Qed.

(** C8.  [flush()] empties the queue; [flush(n)] for [n >= 0] keeps the
    first [n] slots, in order, and drops the other [len - n]; neither calls
    anything, and the speed, the timer, the active flag, the host's timers
    and the world are as before. *)
Theorem flush_keeps_prefix (n : nat) (amount : option Z) (s : sys) :
  queue (this (flush None s)) = [] ∧
  queue (this (flush (Some (Z.of_nat n)) s)) = take n (queue (this s)) ∧
  queue (this s) =
    queue (this (flush (Some (Z.of_nat n)) s)) ++ drop n (queue (this s)) ∧
  length (drop n (queue (this s))) = length (queue (this s)) - n ∧
  speed (this (flush amount s)) = speed (this s) ∧
  timerid (this (flush amount s)) = timerid (this s) ∧
  active (this (flush amount s)) = active (this s) ∧
  timers (flush amount s) = timers s ∧
  env (flush amount s) = env s.
Proof.
  assert (Hq : queue (this (flush (Some (Z.of_nat n)) s))
               = take n (queue (this s))).
  { cbn [flush set_queue this queue]. unfold slice0.
    destruct (Z.ltb_spec (Z.of_nat n) 0) as [?|_]; [lia|].
    rewrite <- Nat2Z.inj_min, Nat2Z.id.
    destruct (Nat.min_spec n (length (queue (this s)))) as [[? ->]|[? ->]];
      [reflexivity|].
    rewrite !take_ge by lia. reflexivity. }
  split; [reflexivity|]. split; [exact Hq|]. rewrite Hq.
  split; [symmetry; apply take_drop|]. split; [apply length_drop|].
  destruct amount; repeat split; reflexivity.
Qed.

(** C2 (as the code has it).  On a belt created with speed ['immediate'],
    [add(f1)] returns with [f1] already called and the queue empty, and
    [add(f2)] then returns with [f2] called after it and the queue empty
    again: both run synchronously, [f1] before [f2]. *)
Theorem immediate_add_runs_on_the_spot (f1 f2 : fn A) (h : host) (w : W) :
  let s0 := state_of (create run Immediate h w) in
  let s1 := Sys (Belt [] Immediate None true) h (effect run f1 w) in
  let s2 := Sys (Belt [] Immediate None true) h
                (effect run f2 (effect run f1 w)) in
  add run f1 s0 = Done s1 ∧ add run f2 s1 = Done s2.
Proof.
  split.
  - exact (burn_all [f1] Immediate None true h w).
  - exact (burn_all [f2] Immediate None true h (effect run f1 w)).
Qed.

(** *** The interval timer *)

Lemma same_control_refl (s : sys) : same_control s s.
Proof. repeat split. Qed.

Lemma same_control_trans (s1 s2 s3 : sys) :
  same_control s1 s2 → same_control s2 s3 → same_control s1 s3.
Proof.
  unfold same_control. intros (?&?&?&?) (?&?&?&?). repeat split; congruence.
Qed.

Lemma timer_inv_same_control (s s' : sys) :
  same_control s s' → timer_inv s → timer_inv s'.
Proof.
  unfold timer_inv, owns_timer, timer_implies_running.
  intros (Hs & Ht & Ha & Hh) [Ho Hr]. rewrite Hs, Ht, Ha, Hh. auto.
Qed.

Lemma pop_call_control (s : sys) : same_control s (state_of (pop_call run s)).
Proof.
  unfold pop_call. destruct (pop (queue (this s))) as [[q [[u|]|]]|];
    repeat split.
Qed.

Lemma burn_loop_control (c : nat) :
  ∀ s : sys, same_control s (state_of (burn_loop run c s)).
Proof.
  induction c as [|c IH]; intros s; simpl; [apply same_control_refl|].
  pose proof (pop_call_control s) as Hp.
  destruct (pop_call run s) as [s'|s']; simpl in Hp; [|exact Hp].
  exact (same_control_trans _ _ _ Hp (IH s')).
Qed.

Lemma burn_control (n : option Z) (s : sys) :
  same_control s (state_of (burn run n s)).
Proof. apply burn_loop_control. Qed.

Lemma timer_inv_schedule (s : sys) :
  timer_inv s → timerid (this s) = None →
  active (this s) = true → is_immediate (speed (this s)) = false →
  timer_inv (schedule s).
Proof.
  unfold timer_inv, owns_timer, timer_implies_running, schedule.
  intros [Ho _] Ht Ha Hs. rewrite Ht in Ho. simpl. split.
  - rewrite Ho. apply union_empty_r_L.
  - intros _ _. auto.
Qed.

Lemma timer_inv_cleared (s : sys) :
  timer_inv s →
  timer_inv (set_timerid None
               (set_timers (clearInterval (timerid (this s)) (timers s)) s)).
Proof.
  unfold timer_inv, owns_timer, timer_implies_running.
  intros [Ho _]. simpl. split; [|discriminate].
  destruct (timerid (this s)) as [t|]; simpl; [|exact Ho].
  rewrite Ho. apply difference_diag_L.
Qed.

Lemma timer_inv_stop (s : sys) :
  timer_inv s →
  timer_inv (stop s) ∧ timerid (this (stop s)) = None ∧
  speed (this (stop s)) = speed (this s).
Proof.
  intros Hi. pose proof (timer_inv_cleared s Hi) as Hc.
  unfold stop. simpl. destruct Hi as [Ho _].
  unfold timer_inv, owns_timer, timer_implies_running in *.
  destruct (timerid (this s)) as [t|] eqn:Ht; simpl in *.
  - split; [split; [apply Hc | discriminate] | split; reflexivity].
  - rewrite Ht.
    split; [split; [exact Ho | discriminate] | split; reflexivity].
Qed.

Lemma timer_inv_step (o : @op A) (s : sys) :
  timer_inv s → timer_inv (state_of (step run o s)).
Proof.
  intros Hi. destruct o as [f| |sp| |n|n]; cbn [step state_of].
  - unfold add.
    remember (set_queue (queue (this s) ++ [Some f]) s) as s1 eqn:E.
    assert (H1 : timer_inv s1)
      by (apply (timer_inv_same_control s); [subst; repeat split | exact Hi]).
    clear E.
    destruct (active (this s1)) eqn:Ha; simpl; [|exact H1].
    destruct (is_immediate (speed (this s1))) eqn:Hs.
    + apply (timer_inv_same_control s1); [apply burn_control | exact H1].
    + destruct (timerid (this s1)) eqn:Ht; simpl; [exact H1|].
      apply timer_inv_schedule; assumption.
  - unfold process.
    destruct (negb (is_immediate (speed (this s))) &&
              (length (queue (this s)) =? 0)).
    + apply timer_inv_cleared. exact Hi.
    + apply (timer_inv_same_control s); [apply pop_call_control | exact Hi].
  - unfold start. destruct (timer_inv_stop s Hi) as ([Ho _] & Ht & _).
    remember (match sp with
              | Some v => set_speed v (set_active true (stop s))
              | None => set_active true (stop s)
              end) as s2 eqn:E.
    assert (H2 : timer_inv s2 ∧ timerid (this s2) = None ∧
                 active (this s2) = true).
    { unfold timer_inv, owns_timer, timer_implies_running.
      subst s2. unfold owns_timer in Ho. rewrite Ht in Ho. destruct sp; simpl; rewrite Ht;
        (split; [split; [exact Ho | discriminate] | auto]). }
    clear E. destruct H2 as (H2 & Ht2 & Ha2).
    destruct (is_immediate (speed (this s2))) eqn:Hs.
    + apply (timer_inv_same_control (set_timerid None s2));
        [apply burn_control|].
      apply (timer_inv_same_control s2); [|exact H2].
      repeat split. simpl. symmetry. exact Ht2.
    + apply timer_inv_schedule; assumption.
  - apply timer_inv_stop. exact Hi.
  - apply (timer_inv_same_control s); [|exact Hi].
    destruct n; repeat split.
  - apply (timer_inv_same_control s); [apply burn_control | exact Hi].
Qed.

Lemma timer_inv_steps (ops : list (@op A)) :
  ∀ s : sys, timer_inv s → timer_inv (steps run ops s).
Proof.
  induction ops as [|o ops IH]; intros s Hi; simpl; [exact Hi|].
  apply IH, timer_inv_step, Hi.
Qed.

Lemma timer_inv_create (sp : speed_t) (next : positive) (w : W) :
  timer_inv (state_of (create run sp (Host ∅ next) w)).
Proof.
  apply (timer_inv_step (Start None)).
  split; [reflexivity | discriminate].
Qed.

(** C3 (as the code has it).  After any sequence of [add], [process],
    [start], [stop], [flush] and [burn] calls on a new belt, the host holds
    at most one of its interval timers, namely the one [timerid] names, and
    [timerid] is non-null only while the belt is active with a duration
    speed.  Nothing ties the timer to a non-empty queue, but a [process]
    call that finds the queue empty under a duration speed cancels it. *)
Theorem one_interval_timer
    (sp : speed_t) (next : positive) (ops : list (@op A)) (w : W) :
  let s := steps run ops (state_of (create run sp (Host ∅ next) w)) in
  size (intervals (timers s)) ≤ 1 ∧
  owns_timer s ∧
  timer_implies_running s ∧
  (length (queue (this s)) = 0 → is_immediate (speed (this s)) = false →
   timerid (this (state_of (process run s))) = None ∧
   intervals (timers (state_of (process run s))) = ∅).
Proof.
  intros s.
  assert (Hi : timer_inv s) by apply timer_inv_steps, timer_inv_create.
  destruct (Hi) as [Ho Hr]. split; [|split; [exact Ho|split; [exact Hr|]]].
  - rewrite Ho. destruct (timerid (this s)).
    + rewrite size_singleton. lia.
    + rewrite size_empty. lia.
  - intros Hq Hs. unfold process. rewrite Hs, Hq. simpl.
    split; [reflexivity|].
    apply (timer_inv_cleared s Hi).
Qed.

End MethodFacts.

Section DecimateFacts.

Context {A : Type}.

Local Abbreviation slot := (option (fn A)).

Lemma functions_le (q : list slot) : functions q ≤ length q.
Proof. induction q as [|[f|] r IH]; simpl; lia. Qed.

Lemma functions_mark (q : list slot) (i : nat) :
  truthy (q !! i) = true → S (functions (<[i := None]> q)) = functions q.
Proof.
  revert i. induction q as [|v r IH]; intros [|i]; simpl; try discriminate.
  - destruct v; [reflexivity | discriminate].
  - intros H. destruct v; simpl; rewrite <- (IH i H); reflexivity.
Qed.

Lemma unprotected_mark (q : list slot) (i : nat) :
  i < length q - 1 →
  unprotected (<[i := None]> q) = <[i := None]> (unprotected q).
Proof.
  intros Hi. unfold unprotected. rewrite length_insert.
  apply take_insert_lt. exact Hi.
Qed.

Lemma unprotected_lookup (q : list slot) (i : nat) :
  i < length q - 1 → unprotected q !! i = q !! i.
Proof. intros Hi. unfold unprotected. apply lookup_take_lt. exact Hi. Qed.

(** The scan cannot finish while it is asked for more marks than there are
    functions in the unprotected slots: every mark uses one up, and the
    protected slot is skipped. *)
Lemma decimate_loop_starved (fuel : nat) :
  ∀ (q : list slot) (i loop increment reduction : nat),
    2 ≤ length q →
    functions (unprotected q) < reduction →
    decimate_loop fuel q i loop increment reduction = None.
Proof.
  induction fuel as [|fuel IH]; intros q i loop increment reduction Hlen Hred;
    [reflexivity|].
  simpl. destruct (Nat.eqb_spec reduction 0) as [->|Hpos]; [lia|].
  set (j := (i + increment) mod length q).
  assert (Hj : j < length q) by (apply Nat.mod_upper_bound; lia).
  destruct (Nat.eqb_spec j (length q - 1)) as [Hlast|Hnot].
  - apply IH; assumption.
  - destruct (truthy (q !! j)) eqn:Hm.
    + apply IH.
      * rewrite length_insert. exact Hlen.
      * rewrite unprotected_mark by lia.
        assert (S (functions (<[j := None]> (unprotected q)))
                = functions (unprotected q)).
        { apply functions_mark. rewrite unprotected_lookup by lia. exact Hm. }
        lia.
    + apply IH; assumption.
Qed.

(** Asked for at least as many marks as there are slots, the scan never
    finishes: the protected slot leaves at most [length q - 1] to mark. *)
Lemma decimate_by_starved (fuel k : nat) (q : list slot) :
  2 ≤ length q → length q ≤ k → decimate_by fuel k q = None.
Proof.
  intros Hlen Hk. unfold decimate_by.
  destruct (Nat.leb_spec (length q) 1) as [?|_]; [lia|].
  rewrite decimate_loop_starved; [reflexivity | exact Hlen |].
  pose proof (functions_le (unprotected q)) as Hf.
  unfold unprotected in *. rewrite length_take in Hf. lia.
Qed.

Lemma reduction_of_0 (len : nat) : reduction_of len 0 = 0.
Proof.
  unfold reduction_of, Math_round, Qfloor.
  change (cutoff 0 0 1) with 0%Q.
  unfold Qplus, Qmult, inject_Z, Qnum, Qden.
  change (Z.pos (1 * 1 * 2)) with 2%Z. change (1 * Z.pos (1 * 1))%Z with 1%Z.
  replace ((Z.of_nat len * 0 * 2 + 1) / 2)%Z with 0%Z; [reflexivity|].
  apply (Z.div_unique _ _ _ 1); lia.
Qed.

Lemma reduction_of_1 (len : nat) : reduction_of len 1 = len.
Proof.
  unfold reduction_of, Math_round, Qfloor.
  change (cutoff 1 0 1) with 1%Q.
  unfold Qplus, Qmult, inject_Z, Qnum, Qden.
  change (Z.pos (1 * 1 * 2)) with 2%Z. change (1 * Z.pos (1 * 1))%Z with 1%Z.
  replace ((Z.of_nat len * 1 * 2 + 1) / 2)%Z with (Z.of_nat len).
  - apply Nat2Z.id.
  - apply (Z.div_unique _ _ _ 1); lia.
Qed.

(** What the clean-up loop leaves at each index. *)
Lemma cleanup_lookup (n : nat) :
  ∀ (q : list slot) (j : nat),
    n ≤ length q →
    cleanup n q !! j =
      if (j <? n) && is_null (q !! j)
      then Some (Some Noop) else q !! j.
Proof.
  induction n as [|n IH]; intros q j Hn; simpl.
  - reflexivity.
  - destruct (q !! n) as [[f|]|] eqn:Hq.
    + rewrite IH by lia.
      destruct (Nat.ltb_spec j n), (Nat.ltb_spec j (S n)); try lia;
        simpl; try reflexivity.
      assert (j = n) as -> by lia. rewrite Hq. reflexivity.
    + rewrite IH by (rewrite length_insert; lia).
      destruct (decide (j = n)) as [->|Hne].
      * rewrite list_lookup_insert_eq by lia. rewrite Hq.
        destruct (Nat.ltb_spec n n), (Nat.ltb_spec n (S n)); try lia.
        reflexivity.
      * rewrite list_lookup_insert_ne by congruence.
        destruct (Nat.ltb_spec j n), (Nat.ltb_spec j (S n)); try lia;
          reflexivity.
    + apply lookup_ge_None in Hq. lia.
Qed.

Lemma cleanup_length (n : nat) :
  ∀ q : list slot, length (cleanup n q) = length q.
Proof.
  induction n as [|n IH]; intros q; simpl; [reflexivity|].
  rewrite IH. destruct (q !! n) as [[f|]|]; try reflexivity.
  apply length_insert.
Qed.

(** Clean-up changes nothing when no slot holds [null]. *)
Lemma cleanup_functions (n : nat) (fs : list (fn A)) :
  cleanup n (Some <$> fs) = Some <$> fs.
Proof.
  induction n as [|n IH]; simpl; [reflexivity|].
  rewrite list_lookup_fmap. destruct (fs !! n); simpl; exact IH.
Qed.

Lemma marked_from_refl (q : list slot) : marked_from q q.
Proof. split; [reflexivity | intros j; left; reflexivity]. Qed.

Lemma marked_from_mark (q q' : list slot) (i : nat) :
  marked_from q q' → i < length q - 1 → marked_from q (<[i := None]> q').
Proof.
  intros [Hl Hm] Hi. split.
  - rewrite length_insert. exact Hl.
  - intros j. destruct (decide (j = i)) as [->|Hne].
    + right. split; [exact Hi|]. apply list_lookup_insert_eq. lia.
    + rewrite list_lookup_insert_ne by congruence. apply Hm.
Qed.

Lemma decimate_loop_marked (fuel : nat) :
  ∀ (q0 q q' : list slot) (i loop increment reduction : nat),
    marked_from q0 q →
    decimate_loop fuel q i loop increment reduction = Some q' →
    marked_from q0 q'.
Proof.
  induction fuel as [|fuel IH]; intros q0 q q' i loop increment reduction Hm;
    simpl; [discriminate|].
  destruct (reduction =? 0); [intros [= <-]; exact Hm|].
  set (j := (i + increment) mod length q).
  destruct (Nat.eqb_spec j (length q - 1)) as [Hlast|Hnot].
  - apply IH. exact Hm.
  - destruct (truthy (q !! j)) eqn:Ht.
    + apply IH. apply marked_from_mark; [exact Hm|].
      assert (j < length q).
      { apply lookup_lt_is_Some. destruct (q !! j); [eauto | discriminate]. }
      destruct Hm as [Hl _]. lia.
    + apply IH. exact Hm.
Qed.

(** *** Termination below [len] *)

Lemma decimate_loop_done (fuel : nat) (q : list slot) (i loop inc : nat) :
  decimate_loop (S fuel) q i loop inc 0 = Some q.
Proof. reflexivity. Qed.

Lemma decimate_loop_protected
    (fuel : nat) (q : list slot) (i loop inc r : nat) :
  r ≠ 0 → (i + inc) mod length q = length q - 1 →
  decimate_loop (S fuel) q i loop inc r
  = decimate_loop fuel q (length q - 1) loop inc r.
Proof.
  intros Hr Hi. cbn [decimate_loop].
  destruct (Nat.eqb_spec r 0) as [?|_]; [lia|].
  rewrite Hi, Nat.eqb_refl. reflexivity.
Qed.

Lemma decimate_loop_mark
    (fuel : nat) (q : list slot) (i loop inc r j : nat) :
  r ≠ 0 → (i + inc) mod length q = j → j ≠ length q - 1 →
  truthy (q !! j) = true →
  decimate_loop (S fuel) q i loop inc r
  = decimate_loop fuel (<[j := None]> q) j (loop + 1)
      (if (loop + 1) mod length q =? 0
       then (if 1 <? inc then inc - 1 else 1) else inc)
      (r - 1).
Proof.
  intros Hr Hi Hj Ht. cbn [decimate_loop].
  destruct (Nat.eqb_spec r 0) as [?|_]; [lia|].
  rewrite Hi. destruct (Nat.eqb_spec j (length q - 1)) as [?|_]; [lia|].
  rewrite Ht. reflexivity.
Qed.

(** While the stride [s] keeps the scan below the protected slot, each of
    the next [j] iterations marks a slot not seen before: the slots above
    the current index are still functions, and [loop] stays below the
    length, so the stride does not change. *)
Lemma decimate_loop_stride (s : nat) (j : nat) :
  ∀ (fuel : nat) (q : list slot) (i loop r : nat),
    (∀ p, i < p < length q → truthy (q !! p) = true) →
    j ≤ r → i + j * s ≤ length q - 2 → loop + j < length q → 1 ≤ s →
    ∃ q', decimate_loop (j + fuel) q i loop s r
          = decimate_loop fuel q' (i + j * s) (loop + j) s (r - j) ∧
          length q' = length q ∧
          (∀ p, i + j * s < p < length q → truthy (q' !! p) = true) ∧
          (∀ p, p < i + s → q' !! p = q !! p).
Proof.
  induction j as [|j IH]; intros fuel q i loop r Hq Hr Hi Hloop Hs.
  - exists q. rewrite !Nat.add_0_r, Nat.sub_0_r. simpl. auto.
  - cbn [Nat.add decimate_loop].
    destruct (Nat.eqb_spec r 0) as [?|_]; [lia|].
    assert (Hm : (i + s) mod length q = i + s) by (apply Nat.mod_small; nia).
    rewrite Hm.
    destruct (Nat.eqb_spec (i + s) (length q - 1)) as [?|_]; [nia|].
    rewrite (Hq (i + s)) by nia.
    assert (Hl : (loop + 1) mod length q = loop + 1)
      by (apply Nat.mod_small; lia).
    rewrite Hl. destruct (Nat.eqb_spec (loop + 1) 0) as [?|_]; [lia|].
    destruct (IH fuel (<[i + s := None]> q) (i + s) (loop + 1) (r - 1))
      as (q' & He & Hlen & Ht & Hsame).
    + rewrite length_insert. intros p Hp.
      rewrite list_lookup_insert_ne by lia. apply Hq. lia.
    + lia.
    + rewrite length_insert. nia.
    + rewrite length_insert. lia.
    + exact Hs.
    + rewrite length_insert in *. exists q'. split; [|split; [|split]].
      * rewrite He. f_equal; nia.
      * exact Hlen.
      * intros p Hp. apply Ht. nia.
      * intros p Hp. rewrite Hsame by lia.
        apply list_lookup_insert_ne. lia.
Qed.

(** For every [k] from 1 to [len - 1] the scan of a queue of functions is
    over within [k + 2] tests of the loop condition, so [decimate] returns
    after work linear in the length. *)
Lemma decimate_by_returns (k : nat) (fs : list (fn A)) :
  1 ≤ k < length fs → is_Some (decimate_by (k + 2) k (Some <$> fs)).
Proof.
  intros Hk. unfold decimate_by.
  set (q := Some <$> fs). set (n := length q).
  assert (Hn : n = length fs) by apply length_fmap.
  destruct (Nat.leb_spec n 1) as [?|_]; [lia|].
  set (s := n / k).
  assert (Hlo : k * s ≤ n) by (apply Nat.Div0.mul_div_le).
  assert (Hs : 1 ≤ s) by (apply Nat.div_le_lower_bound; lia).
  assert (Hq : ∀ p, 0 < p < length q → truthy (q !! p) = true).
  { intros p Hp. subst q. rewrite list_lookup_fmap.
    destruct (fs !! p) eqn:E; [reflexivity|].
    apply lookup_ge_None in E. rewrite length_fmap in Hp. lia. }
  assert (H0 : truthy (q !! 0) = true).
  { subst q. rewrite list_lookup_fmap.
    destruct (fs !! 0) eqn:E; [reflexivity|].
    apply lookup_ge_None in E. lia. }
  cut (is_Some (decimate_loop (k + 2) q 0 0 s k)).
  { intros [q' ->]. eauto. }
  destruct (decide (k * s ≤ n - 2)) as [Ha|Ha].
  - (* the k marks fit below the protected slot *)
    destruct (decimate_loop_stride s k 2 q 0 0 k) as (q' & He & _);
      try (fold n; lia); [exact Hq|].
    rewrite He, Nat.sub_diag. simpl. eauto.
  - (* k - 1 marks, then the scan reaches the last slot or wraps to 0 *)
    destruct (decimate_loop_stride s (k - 1) 3 q 0 0 k)
      as (q' & He & Hlen & Ht & Hsame); try (fold n; nia); [exact Hq|].
    replace (k + 2) with (k - 1 + 3) by lia. rewrite He.
    replace (k - (k - 1)) with 1 by lia. fold n in Hlen.
    destruct (decide (k * s = n)) as [Hc|Hc].
    + (* the k-th step wraps to slot 0 *)
      rewrite (decimate_loop_mark 2 q' _ _ s 1 0); try lia.
      * rewrite decimate_loop_done. eauto.
      * rewrite Hlen. replace (0 + (k - 1) * s + s) with n by nia.
        apply Nat.Div0.mod_same.
      * rewrite Hsame, H0 by lia. reflexivity.
    + (* the k-th step lands on the protected slot, the next on s - 1 *)
      assert (Hb : k * s = n - 1) by lia.
      rewrite decimate_loop_protected; try lia.
      2:{ rewrite Hlen. replace (0 + (k - 1) * s + s) with (n - 1) by nia.
          apply Nat.mod_small. lia. }
      rewrite (decimate_loop_mark 1 q' _ _ s 1 (s - 1)); try nia.
      * rewrite decimate_loop_done. eauto.
      * rewrite Hlen. replace (n - 1 + s) with (s - 1 + 1 * n) by lia.
        rewrite Nat.Div0.mod_add. apply Nat.mod_small. nia.
      * rewrite Hsame by lia.
        destruct (decide (s - 1 = 0)) as [->|?]; [exact H0|].
        apply Hq. fold n. nia.
Qed.

Lemma decimate_all_never_returns_aux
    (fuel : nat) (v1 v2 : slot) (q : list slot) :
  decimate_by fuel (length (v1 :: v2 :: q)) (v1 :: v2 :: q) = None ∧
  decimate_queue fuel 1 (v1 :: v2 :: q) = None.
Proof.
  assert (H : decimate_by fuel (length (v1 :: v2 :: q)) (v1 :: v2 :: q)
              = None).
  { apply decimate_by_starved; simpl; lia. }
  split; [exact H|]. unfold decimate_queue. rewrite reduction_of_1. exact H.
Qed.

(** C1.  On a queue of two or more functions the scan terminates for every
    reduction count [k] below the length, within [k + 2] tests of the loop
    condition, but not for [k = len], which is what a factor of 1 asks
    for ([reduction_of] gives [len]): the loop is then still running after
    any number of iterations, since only [len - 1] slots may be marked. *)
Theorem decimate_returns_only_below_len
    (fuel k : nat) (fs : list (fn A)) :
  2 ≤ length fs →
  (k < length fs → is_Some (decimate_by (k + 2) k (Some <$> fs))) ∧
  reduction_of (length fs) 1 = length fs ∧
  decimate_by fuel (length fs) (Some <$> fs) = None ∧
  decimate_queue fuel 1 (Some <$> fs) = None.
Proof.
  intros Hlen. split; [|split; [apply reduction_of_1|]].
  - intros Hk. destruct k as [|k]; [|apply decimate_by_returns; lia].
    unfold decimate_by. rewrite length_fmap.
    destruct (Nat.leb_spec (length fs) 1) as [?|_]; [lia|].
    cbn [Nat.add]. rewrite decimate_loop_done. eauto.
  - destruct fs as [|f1 [|f2 fs]]; simpl in Hlen; try lia.
    rewrite <- (length_fmap Some (f1 :: f2 :: fs)).
    rewrite !fmap_cons. apply decimate_all_never_returns_aux.
Qed.

(** C5.  [decimate] on a queue of length 0 or 1 returns with the state
    unchanged, for every factor; [decimate(0)] on a queue of functions
    returns with the state unchanged; [decimate(1)] on a queue of two or
    more functions never returns, so it does not leave the queue with only
    its last slot live. *)
Theorem decimate_edge_cases {W : Type}
    (fuel : nat) (factor : Q) (v : slot) (f1 f2 : fn A) (fs : list (fn A))
    (sp : speed_t) (t : option positive) (a : bool) (h : host) (w : W) :
  let mk q := Sys (Belt q sp t a) h w in
  decimate fuel factor (mk []) = Some (mk []) ∧
  decimate fuel factor (mk [v]) = Some (mk [v]) ∧
  decimate (S fuel) 0 (mk (Some <$> fs)) = Some (mk (Some <$> fs)) ∧
  decimate fuel 1 (mk (Some <$> f1 :: f2 :: fs)) = None.
Proof.
  intros mk. repeat split; try reflexivity.
  - unfold decimate, decimate_queue, decimate_by. cbn [mk this queue].
    rewrite reduction_of_0.
    destruct (length (Some <$> fs) <=? 1); [reflexivity|].
    cbn [decimate_loop Nat.eqb]. rewrite cleanup_functions. reflexivity.
  - unfold decimate. cbn [mk this queue]. rewrite fmap_cons, fmap_cons.
    destruct (decimate_all_never_returns_aux fuel (Some f1) (Some f2)
                (Some <$> fs)) as [_ ->].
    reflexivity.
Qed.

(** C6.  Whenever [decimate] returns, the queue has the length it had, its
    last slot is what it was, every other slot holds either what it held
    or the no-op, and nothing else of the state has changed. *)
Theorem decimate_frame {W : Type}
    (fuel : nat) (factor : Q) (s s' : sys A W) :
  decimate fuel factor s = Some s' →
  length (queue (this s')) = length (queue (this s)) ∧
  last (queue (this s')) = last (queue (this s)) ∧
  (∀ j, queue (this s') !! j = queue (this s) !! j ∨
        (j < length (queue (this s)) - 1 ∧
         queue (this s') !! j = Some (Some Noop))) ∧
  speed (this s') = speed (this s) ∧
  timerid (this s') = timerid (this s) ∧
  active (this s') = active (this s) ∧
  timers s' = timers s ∧
  env s' = env s.
Proof.
  unfold decimate.
  destruct (decimate_queue fuel factor (queue (this s))) as [q'|] eqn:Hq;
    [|discriminate].
  intros [= <-]. cbn [this queue speed timerid active timers env].
  cut (length q' = length (queue (this s)) ∧
       ∀ j, q' !! j = queue (this s) !! j ∨
            (j < length (queue (this s)) - 1 ∧ q' !! j = Some (Some Noop))).
  { intros [Hl Hj]. repeat split; try assumption.
    rewrite !last_lookup, Hl.
    destruct (Hj (pred (length (queue (this s))))) as [->|[? _]];
      [reflexivity | lia]. }
  revert Hq. generalize (queue (this s)). clear s. intros q.
  unfold decimate_queue, decimate_by.
  destruct (length q <=? 1); [intros [= <-]; split; auto|].
  destruct (decimate_loop _ _ _ _ _ _) as [q1|] eqn:Hloop; [|discriminate].
  intros [= <-].
  apply (decimate_loop_marked _ q) in Hloop; [|apply marked_from_refl].
  destruct Hloop as [Hl Hm]. split.
  - rewrite cleanup_length. exact Hl.
  - intros j. rewrite cleanup_lookup by lia.
    destruct (Hm j) as [Hj|[Hj Hn]].
    + destruct (Nat.ltb_spec j (length q1 - 1)); simpl; [|left; exact Hj].
      destruct (is_null (q1 !! j)); [right|left; exact Hj].
      split; [lia | reflexivity].
    + right. rewrite Hn. simpl.
      destruct (Nat.ltb_spec j (length q1 - 1)); [|lia].
      split; [exact Hj | reflexivity].
Qed.

End DecimateFacts.

(** ** The statements on concrete belts *)

(** C2, as stated, fails: on an ['immediate'] belt whose functions log
    their calls, [add(f1); add(f2)] leaves the log [f1, f2], so [f2] was
    not called before [f1]. *)
Lemma immediate_add_is_not_lifo :
  let s0 := state_of (create log Immediate (Host ∅ 1) []) in
  let s2 := state_of (add log (User 2) (state_of (add log (User 1) s0))) in
  queue (this s2) = [] ∧ env s2 = [1; 2] ∧ ¬ called_before 2 1 (env s2).
Proof.
  split; [reflexivity|]. split; [reflexivity|].
  intros (l1 & l2 & l3 & H). cbv in H.
  destruct l1 as [|a [|b [|c l1]]]; try discriminate;
    injection H as -> H;
    destruct l2 as [|b' [|c' l2]]; discriminate.
Qed.

(** C3, as stated, fails in its last part: on a new belt of speed 100,
    a [process] call finds the queue empty and cancels the timer, and a
    [start] call then schedules one again, the queue still being empty. *)
Lemma timer_scheduled_on_empty_queue :
  let r := observe log [Process; Start None]
             (state_of (create log (Msec 100) (Host ∅ 1) [])) None in
  timerid (this (r.1)) = Some 2%positive ∧
  queue (this (r.1)) = [] ∧
  r.2 = Some false ∧
  ¬ timer_only_after_nonempty_check (r.1) (r.2).
Proof.
  split; [reflexivity|]. split; [reflexivity|]. split; [reflexivity|].
  intros H. destruct H as (_ & _ & H); [discriminate|]. discriminate H.
Qed.

(** The specification's scenario for a belt of speed 100: one function is
    added, the first tick calls it, and the next tick, finding the queue
    empty, cancels the timer. *)
Lemma one_interval_timer_witness :
  let s := steps log [Add (User 1); Process]
             (state_of (create log (Msec 100) (Host ∅ 1) [])) in
  env s = [1] ∧
  timerid (this s) = Some 1%positive ∧
  timerid (this (state_of (process log s))) = None ∧
  intervals (timers (state_of (process log s))) = ∅.
Proof.
  intros s. split; [reflexivity|]. split; [reflexivity|].
  destruct (one_interval_timer log (Msec 100) 1 [Add (User 1); Process] [])
    as (_ & _ & _ & H).
  apply H; reflexivity.
Defined.

(** On four functions, two marks are made and [decimate] returns; four
    marks never are. *)
Lemma decimate_returns_only_below_len_witness :
  let fs := [User 1; User 2; User 3; User 4] in
  is_Some (decimate_by 4 2 (Some <$> fs)) ∧
  decimate_queue 50 1 (Some <$> fs) = None.
Proof.
  intros fs.
  destruct (decimate_returns_only_below_len 50 2 fs) as (Hr & _ & _ & Hn);
    [simpl; lia|].
  split; [apply Hr; simpl; lia | exact Hn].
Defined.

(** A belt of four functions halved: slots 0 and 2 become no-ops. *)
Lemma decimate_frame_witness :
  let s := Sys (Belt [Some (User 1); Some (User 2); Some (User 3);
                      Some (User 4)] (Msec 35) (Some 1%positive) true)
               (Host {[1%positive]} 2) [0] in
  let s' := Sys (Belt [Some Noop; Some (User 2); Some Noop;
                       Some (User 4)] (Msec 35) (Some 1%positive) true)
                (Host {[1%positive]} 2) [0] in
  decimate 8 (1 # 2) s = Some s' ∧
  length (queue (this s')) = length (queue (this s)) ∧
  last (queue (this s')) = last (queue (this s)).
Proof.
  intros s s'.
  assert (H : decimate 8 (1 # 2) s = Some s') by reflexivity.
  split; [exact H|].
  destruct (decimate_frame 8 (1 # 2) s s' H) as (Hl & Hlast & _).
  split; [exact Hl | exact Hlast].
Defined.

End ConveyorBeltProps.

(** ** Thinking.js *)

Module ThinkingProps.

Import Thinking.

Lemma filter_none {X} (P : X → Prop) `{∀ x, Decision (P x)} (l : list X) :
  (∀ x, x ∈ l → ¬ P x) → filter P l = [].
Proof.
  induction l as [|x l IH]; intros Hl; [reflexivity|].
  rewrite filter_cons_False by (apply Hl; left).
  apply IH. intros y Hy. apply Hl. right. exact Hy.
Qed.

Lemma fire_due_frame (n : nat) (t : Z) :
  ∀ s, listeners (fire_due n t s) = listeners s ∧
       timeouts (fire_due n t s) ⊆ timeouts s.
Proof.
  induction n as [|n IH]; intros s; simpl; [split; reflexivity|].
  destruct (earliest (timeouts s)) as [p|]; [|split; reflexivity].
  destruct (p.2 <=? t)%Z; [|split; reflexivity].
  destruct (IH (fire p s)) as [Hl Ht]. split; [exact Hl|].
  intros x Hx. apply Ht in Hx. simpl in Hx.
  apply list_elem_of_filter in Hx. tauto.
Qed.

Lemma advance_frame (t : Z) (s : sys) :
  listeners (advance t s) = listeners s ∧
  timeouts (advance t s) ⊆ timeouts s.
Proof. unfold advance. simpl. apply fire_due_frame. Qed.

(** An activity event heard by the one listener there is, which holds
    every pending timer: all of them are cancelled and one is set. *)
Lemma activity_one_timer (ev : string) (l : listener) (s : sys) :
  listeners s = [l] → all_current l s → ev ∈ events (config l) →
  now (activity ev s) = now s ∧
  timeouts (activity ev s) =
    [(fresh s, (now s + Z.max 0 (idle (config l)))%Z)] ∧
  listeners (activity ev s) = [Listener (config l) (Some (fresh s))].
Proof.
  intros Hl Hc Hev. unfold activity. rewrite Hl. cbn [dispatch].
  rewrite bool_decide_eq_true_2 by exact Hev.
  assert (Hnil : timeouts
                   (match timerid l with
                    | Some t => clearTimeout t s
                    | None => s
                    end) = []).
  { destruct (timerid l) as [t|] eqn:Ht.
    - simpl. apply filter_none. intros p Hp Hne.
      apply Hc in Hp. rewrite Ht in Hp. injection Hp as ->.
      apply Hne. reflexivity.
    - destruct (timeouts s) as [|p r] eqn:E; [reflexivity|].
      specialize (Hc p). rewrite E, Ht in Hc.
      discriminate Hc. left. }
  unfold resetTimeout, timeout, setTimeout.
  destruct (timerid l) as [t|]; simpl in Hnil |- *; rewrite Hnil;
    repeat split.
Qed.

Lemma play_one_timer (ev : string) (gaps : list nat) :
  ∀ (g : nat) (l : listener) (s : sys),
    listeners s = [l] → all_current l s → ev ∈ events (config l) →
    let s' := play ev (g :: gaps) s in
    ∃ id, timeouts s' = [(id, (now s' + Z.max 0 (idle (config l)))%Z)] ∧
          listeners s' = [Listener (config l) (Some id)].
Proof.
  induction gaps as [|g' gaps IH]; intros g l s Hl Hc Hev.
  - cbn [play].
    destruct (advance_frame (now s + Z.of_nat g) s) as [Hl' Ht'].
    destruct (activity_one_timer ev l (advance (now s + Z.of_nat g) s))
      as (Hn & Ht & Hls); auto.
    { rewrite Hl'. exact Hl. }
    { intros p Hp. apply Hc, Ht', Hp. }
    eexists. rewrite Hn. split; eassumption.
  - change (play ev (g :: g' :: gaps) s)
      with (play ev (g' :: gaps)
              (activity ev (advance (now s + Z.of_nat g) s))).
    destruct (advance_frame (now s + Z.of_nat g) s) as [Hl' Ht'].
    destruct (activity_one_timer ev l (advance (now s + Z.of_nat g) s))
      as (Hn & Ht & Hls); auto.
    { rewrite Hl'. exact Hl. }
    { intros p Hp. apply Hc, Ht', Hp. }
    apply (IH g' _ _ Hls).
    + intros p Hp. rewrite Ht in Hp. apply list_elem_of_singleton in Hp.
      subst p. reflexivity.
    + exact Hev.
Qed.

(** C4.  With an idle delay of 200 and activity at the times 0, 100 and
    250, nothing has fired by 250, nothing fires at 300, and by any later
    time [T] exactly one idle notification has fired, at 450, if [T] has
    reached 450, and none otherwise.  In general, after every activity
    event exactly one timer is pending, the one set by that event and due
    one idle delay after it: the event cancelled the one before. *)
Theorem idle_fires_once_after_last_activity
    (T d t0 : Z) (g : nat) (gaps : list nat) :
  let scenario :=
    play "keydown" [0; 100; 150]
         (startThinking (Options (Some 200%Z) None) (untouched 0)) in
  let s :=
    play "keydown" (g :: gaps)
         (startThinking (Options (Some d) None) (untouched t0)) in
  fired scenario = [] ∧
  fired (advance 300 scenario) = [] ∧
  fired (advance T scenario) = (if (450 <=? T)%Z then [450%Z] else []) ∧
  ∃ id, timeouts s = [(id, (now s + Z.max 0 d)%Z)] ∧
        listeners s = [Listener (Settings d (events defaults)) (Some id)].
Proof.
  intros scenario s. split; [reflexivity|]. split; [reflexivity|]. split.
  - change scenario with
      (Sys 250 [(3%positive, 450%Z)] 4
           (Data (Some StActive) (Some 250%Z) (Some [3%positive]))
           [Listener (Settings 200 (events defaults)) (Some 3%positive)] []).
    unfold advance. cbn [timeouts length fire_due earliest snd].
    destruct (450 <=? T)%Z; reflexivity.
  - apply (play_one_timer "keydown" gaps g
             (Listener (Settings d (events defaults)) None)).
    + reflexivity.
    + intros p Hp. simpl in Hp. inversion Hp.
    + simpl. left.
Qed.

(** C9 (as the code has it).  [startThinking] leaves the subject's data as
    it finds it: on a subject nothing has been done to, ['running'] gives
    false and ['elapsed'] gives [undefined] right after the start.  The
    first qualifying activity event is what marks the subject active and
    records the time of the reset; from then ['running'] gives true and
    ['elapsed'] a number. *)
Theorem start_waits_for_activity (o : options) (t : Z) (g : nat) (s : sys) :
  let s0 := startThinking o (untouched t) in
  let s1 := play "keydown" [g]
              (startThinking (Options (opt_idle o) None) (untouched t)) in
  store (startThinking o s) = store s ∧
  running s0 = false ∧
  elapsed s0 = Undefined ∧
  running s1 = true ∧
  lastreset (store s1) = Some (now s1) ∧
  elapsed s1 = Num 0.
Proof.
  intros s0 s1.
  assert (Hr : running s1 = true) by reflexivity.
  assert (Hl : lastreset (store s1) = Some (now s1)) by reflexivity.
  split; [reflexivity|]. split; [reflexivity|]. split; [reflexivity|].
  split; [exact Hr|]. split; [exact Hl|].
  unfold elapsed. rewrite Hr, Hl, Z.sub_diag. reflexivity.
Qed.

(** C9, as stated, fails: right after ['start'] with the default settings
    the subject is not marked active and no reset time is recorded, so
    ['running'] gives false and ['elapsed'] gives [undefined]. *)
Lemma start_alone_is_not_running :
  let s0 := startThinking (Options None None) (untouched 0) in
  thinking (store s0) = None ∧
  lastreset (store s0) = None ∧
  running s0 = false ∧
  running s0 ≠ true ∧
  elapsed s0 = Undefined.
Proof. repeat split. discriminate. Qed.

End ThinkingProps.

(** ** Conditional.js *)

Module ConditionalProps.

Lemma reduce_or_true (values : list Conditional.value) :
  Conditional.reduce Conditional.js_or (Conditional.VBool true) values
  = Conditional.VBool true.
Proof.
  unfold Conditional.reduce.
  induction values as [|v values IH]; [reflexivity | exact IH].
Qed.

(** C10.  [Conditional.or] returns [true] whatever the conditions are, the
    empty map and a map of false conditions included: the fold starts from
    [true], and [true || b] is [true]. *)
Theorem or_is_always_true (conds data : Conditional.object) :
  Conditional.or conds data = Conditional.VBool true ∧
  Conditional.or [] data = Conditional.VBool true ∧
  Conditional.or [("a"%string, Conditional.VBool false);
                  ("b"%string, Conditional.VBool false)] data
    = Conditional.VBool true ∧
  Conditional.or conds data ≠ Conditional.VBool false.
Proof.
  assert (H : ∀ c, Conditional.or c data = Conditional.VBool true)
    by (intros c; apply reduce_or_true).
  rewrite !H. repeat split. discriminate.
Qed.

End ConditionalProps.

(** * Further properties *)

(** ** ConveyorBelt.js: stop, start, process, flush *)

Module ConveyorBeltMore.

Import ConveyorBelt ConveyorBeltProps.

Section Methods.

Context {A W : Type} (run : A → W → W).

Local Abbreviation sys := (sys A W).

Lemma add_inactive (f : fn A) (s : sys) :
  active (this s) = false →
  add run f s = Done (set_queue (queue (this s) ++ [Some f]) s).
Proof. intros Ha. unfold add. cbn [set_queue this active]. rewrite Ha. reflexivity. Qed.

Lemma adds_inactive (fs : list (fn A)) :
  ∀ s : sys,
    active (this s) = false →
    steps run (Add <$> fs) s
    = set_queue (queue (this s) ++ (Some <$> fs)) s.
Proof.
  induction fs as [|f fs IH]; intros s Ha.
  - simpl. rewrite app_nil_r. destruct s as [[q sp t a] h w]. reflexivity.
  - cbn [fmap list_fmap steps step]. rewrite add_inactive by exact Ha.
    cbn [state_of]. rewrite IH by exact Ha.
    unfold set_queue. cbn [this queue speed timerid active timers env].
    rewrite <- app_assoc. reflexivity.
Qed.

(** X1.  A stopped belt only queues: [stop] cancels the timer and keeps
    the queue, and the functions added afterwards are appended in order
    without any of them being called and without a timer being set. *)
Theorem stopped_belt_only_queues (fs : list (fn A)) (s : sys) :
  let s' := steps run (Add <$> fs) (stop s) in
  queue (this s') = queue (this s) ++ (Some <$> fs) ∧
  env s' = env s ∧
  active (this s') = false ∧
  timerid (this s') = None ∧
  speed (this s') = speed (this s) ∧
  timers s' = clearInterval (timerid (this s)) (timers s).
Proof.
  intros s'. unfold s'.
  assert (Ha : active (this (stop s)) = false).
  { destruct s as [[q sp [t|] a] h w]; reflexivity. }
  rewrite adds_inactive by exact Ha. clear Ha s'.
  destruct s as [[q sp [t|] a] h w]; repeat split.
Qed.

Lemma process_nonempty (q : list (option (fn A))) (v : option (fn A))
    sp t a h (w : W) :
  process run (Sys (Belt (q ++ [v]) sp t a) h w)
  = call run v (Sys (Belt q sp t a) h w).
Proof.
  unfold process. cbn [this queue speed]. rewrite length_app. cbn [length].
  replace (length q + 1 =? 0) with false
    by (symmetry; apply Nat.eqb_neq; lia).
  rewrite andb_false_r. unfold pop_call. cbn [this queue].
  rewrite pop_snoc. reflexivity.
Qed.

Lemma ticks_functions (fs2 : list (fn A)) :
  ∀ (fs1 : list (fn A)) sp t a h (w : W),
    steps run (replicate (length fs2) Process)
          (Sys (Belt (Some <$> fs1 ++ fs2) sp t a) h w)
    = Sys (Belt (Some <$> fs1) sp t a) h (effects run (reverse fs2) w).
Proof.
  induction fs2 as [|f fs2 IH] using rev_ind; intros fs1 sp t a h w.
  - simpl. rewrite app_nil_r. reflexivity.
  - rewrite length_app. cbn [length].
    replace (length fs2 + 1) with (S (length fs2)) by lia.
    cbn [replicate steps step]. rewrite app_assoc, fmap_app.
    cbn [fmap list_fmap]. rewrite process_nonempty.
    rewrite reverse_snoc.
    destruct f as [u|]; unfold call, set_env;
      cbn [state_of this timers env]; rewrite IH; reflexivity.
Qed.

(** X2.  On a queue that ends with the functions [fs2], as many [process]
    calls as [fs2] has functions do what one [burn] of that amount does:
    they call [fs2] last first, whatever the speed, and leave the rest of
    the queue and the timer alone. *)
Theorem ticks_do_what_burn_does (fs1 fs2 : list (fn A)) sp t a h (w : W) :
  let s := Sys (Belt (Some <$> fs1 ++ fs2) sp t a) h w in
  let s' := Sys (Belt (Some <$> fs1) sp t a) h
                (effects run (reverse fs2) w) in
  steps run (replicate (length fs2) Process) s = s' ∧
  burn run (Some (Z.of_nat (length fs2))) s = Done s'.
Proof.
  intros s s'. split; [apply ticks_functions|].
  unfold burn, s. cbn [this queue]. rewrite length_fmap, length_app.
  rewrite <- Nat2Z.inj_min, Nat2Z.id.
  replace (length fs2 `min` (length fs1 + length fs2)) with (length fs2)
    by lia.
  rewrite burn_loop_functions by (rewrite length_app; lia).
  rewrite length_app, reverse_app.
  replace (length fs1 + length fs2 - length fs2) with (length fs1) by lia.
  rewrite take_app_length.
  rewrite <- (length_reverse fs2) at 1. rewrite take_app_length.
  reflexivity.
Qed.

Lemma adds_scheduled (ms : Z) (t : positive) (fs : list (fn A)) :
  ∀ (q : list (option (fn A))) h (w : W),
    steps run (Add <$> fs) (Sys (Belt q (Msec ms) (Some t) true) h w)
    = Sys (Belt (q ++ (Some <$> fs)) (Msec ms) (Some t) true) h w.
Proof.
  induction fs as [|f fs IH]; intros q h w.
  - simpl. rewrite app_nil_r. reflexivity.
  - cbn [fmap list_fmap steps step].
    change (add run f (Sys (Belt q (Msec ms) (Some t) true) h w))
      with (Done (Sys (Belt (q ++ [Some f]) (Msec ms) (Some t) true) h w)).
    cbn [state_of]. rewrite IH, <- app_assoc. reflexivity.
Qed.

(** X3.  A belt with a duration speed works its queue off from the end,
    one function per tick: after as many ticks as functions were added,
    all have been called, the last added first, with the timer still set;
    the next tick finds the queue empty and cancels the timer without
    stopping the belt; and the next [add] sets a new timer. *)
Theorem duration_belt_drains_then_rests
    (ms : Z) (next : positive) (fs : list (fn A)) (g : fn A) (w : W) :
  let s0 := state_of (create run (Msec ms) (Host ∅ next) w) in
  let s1 := steps run (Add <$> fs) s0 in
  let s2 := steps run (replicate (length fs) Process) s1 in
  let s3 := state_of (process run s2) in
  let s4 := state_of (add run g s3) in
  (queue (this s1) = Some <$> fs ∧ env s1 = w) ∧
  (queue (this s2) = [] ∧ env s2 = effects run (reverse fs) w ∧
   timerid (this s2) = Some next) ∧
  (timerid (this s3) = None ∧ intervals (timers s3) = ∅ ∧
   active (this s3) = true ∧ env s3 = env s2) ∧
  (timerid (this s4) = Some (next + 1)%positive ∧
   intervals (timers s4) = {[(next + 1)%positive]} ∧
   queue (this s4) = [Some g] ∧ env s4 = env s2).
Proof.
  intros s0 s1 s2 s3 s4.
  assert (E1 : s1 = Sys (Belt (Some <$> fs) (Msec ms) (Some next) true)
                        (Host ({[next]} ∪ ∅) (next + 1)) w).
  { unfold s1, s0. exact (adds_scheduled ms next fs [] _ w). }
  assert (E2 : s2 = Sys (Belt [] (Msec ms) (Some next) true)
                        (Host ({[next]} ∪ ∅) (next + 1))
                        (effects run (reverse fs) w)).
  { unfold s2. rewrite E1. exact (ticks_functions fs [] _ _ _ _ w). }
  assert (E3 : s3 = Sys (Belt [] (Msec ms) None true)
                        (Host ∅ (next + 1)) (effects run (reverse fs) w)).
  { unfold s3. rewrite E2.
    change (state_of (process run ?x))
      with (Sys (Belt (A:=A) [] (Msec ms) None true)
                (Host (({[next]} ∪ ∅) ∖ {[next]}) (next + 1))
                (effects run (reverse fs) w)).
    rewrite union_empty_r_L, difference_diag_L. reflexivity. }
  assert (E4 : s4 = Sys (Belt [Some g] (Msec ms) (Some (next + 1)%positive)
                              true)
                        (Host {[(next + 1)%positive]} (next + 1 + 1))
                        (effects run (reverse fs) w)).
  { unfold s4. rewrite E3.
    change (state_of (add run g ?x))
      with (Sys (Belt [Some g] (Msec ms) (Some (next + 1)%positive) true)
                (Host ({[(next + 1)%positive]} ∪ ∅) (next + 1 + 1))
                (effects run (reverse fs) w)).
    rewrite union_empty_r_L. reflexivity. }
  rewrite E1, E2, E3, E4. repeat split.
Qed.

(** X4.  [start('immediate')] is where the queue is drained last in first
    out: whatever the belt was doing, its timer is cancelled, every queued
    function is called, the most recently added first, and the belt is
    left active with an empty queue and no timer.  [start()] does the same
    on a belt whose speed already is ['immediate']. *)
Theorem start_immediate_drains_lifo
    (fs : list (fn A)) sp t a h (w : W) :
  let drained := Sys (Belt [] Immediate None true) (clearInterval t h)
                     (effects run (reverse fs) w) in
  start run (Some Immediate) (Sys (Belt (Some <$> fs) sp t a) h w)
    = Done drained ∧
  start run None (Sys (Belt (Some <$> fs) Immediate t a) h w)
    = Done drained.
Proof.
  split; destruct t as [t|];
    exact (burn_all run fs Immediate None true _ w).
Qed.

(** X5.  [flush] with a negative amount counts from the end: [flush(-m)]
    for [m >= 1] drops the [m] most recently added slots and keeps the
    others, where [flush(0)] drops everything. *)
Theorem flush_negative_drops_newest (m : nat) (s : sys) :
  queue (this (flush (Some (- Z.of_nat (S m))%Z) s))
    = take (length (queue (this s)) - S m) (queue (this s)) ∧
  queue (this (flush (Some 0%Z) s)) = [].
Proof.
  split; cbn [flush set_queue this queue]; unfold slice0.
  - destruct (Z.ltb_spec (- Z.of_nat (S m)) 0) as [_|?]; [|lia].
    f_equal. lia.
  - cbn [Z.ltb Z.compare]. rewrite Z.min_l by lia. reflexivity.
Qed.

Lemma adds_immediate (fs : list (fn A)) :
  ∀ h (w : W),
    steps run (Add <$> fs) (Sys (Belt [] Immediate None true) h w)
    = Sys (Belt [] Immediate None true) h (effects run fs w).
Proof.
  induction fs as [|f fs IH]; intros h w; [reflexivity|].
  cbn [fmap list_fmap steps step].
  change (add run f (Sys (Belt [] Immediate None true) h w))
    with (burn run None (Sys (Belt (Some <$> [f]) Immediate None true) h w)).
  rewrite burn_all. cbn [state_of]. rewrite IH. reflexivity.
Qed.

(** X6.  A belt created with speed ['immediate'] never holds anything:
    however many functions are added, each is called during its own [add],
    so they run in the order they were added, the queue is empty after
    every call and no timer is ever set. *)
Theorem immediate_belt_runs_in_order (fs : list (fn A)) (h : host) (w : W) :
  steps run (Add <$> fs) (state_of (create run Immediate h w))
  = Sys (Belt [] Immediate None true) h (effects run fs w).
Proof. exact (adds_immediate fs h w). Qed.

End Methods.

(** ** ConveyorBelt.js: how many slots decimate rewrites *)

Section Decimate.

Context {A : Type}.

Local Abbreviation slot := (option (fn A)).

(** Each pass of the loop that lowers [reduction] takes one function out
    of the queue, so their sum does not change. *)
Lemma decimate_loop_count (fuel : nat) :
  ∀ (q q' : list slot) (i loop increment reduction : nat),
    decimate_loop fuel q i loop increment reduction = Some q' →
    functions q' + reduction = functions q.
Proof.
  induction fuel as [|fuel IH]; intros q q' i loop increment reduction;
    simpl; [discriminate|].
  destruct (Nat.eqb_spec reduction 0) as [->|Hr];
    [intros [= <-]; lia|].
  set (j := (i + increment) mod length q).
  destruct (j =? length q - 1); [apply IH|].
  destruct (truthy (q !! j)) eqn:Ht; [|apply IH].
  intros H. apply IH in H. pose proof (functions_mark q j Ht). lia.
Qed.

Lemma functions_nulls (q : list slot) : functions q + nulls q = length q.
Proof. induction q as [|[f|] r IH]; simpl; lia. Qed.

Lemma noops_none (q : list slot) :
  (∀ j, q !! j ≠ Some (Some Noop)) → noops q = 0.
Proof.
  induction q as [|v r IH]; intros H; [reflexivity|].
  assert (Hr : noops r = 0) by (apply IH; intros j; apply (H (S j))).
  specialize (H 0). destruct v as [[u|]|]; simpl; try exact Hr.
  contradiction H. reflexivity.
Qed.

Lemma swept_counts (q : list slot) :
  noops (swept <$> q) = nulls q + noops q ∧ nulls (swept <$> q) = 0.
Proof.
  induction q as [|v r [IH1 IH2]]; [split; reflexivity|].
  rewrite fmap_cons. destruct v as [[u|]|]; simpl; split; lia.
Qed.

(** When only slots below the last hold [null], the clean-up loop rewrites
    every one of them. *)
Lemma cleanup_sweeps (q : list slot) :
  (∀ j, is_null (q !! j) = true → j < length q - 1) →
  cleanup (length q - 1) q = swept <$> q.
Proof.
  intros H. apply list_eq. intros j.
  rewrite cleanup_lookup by lia. rewrite list_lookup_fmap.
  specialize (H j). destruct (q !! j) as [[f|]|]; simpl;
    rewrite ?andb_false_r; try reflexivity.
  destruct (Nat.ltb_spec j (length q - 1)) as [_|Hge]; [reflexivity|].
  specialize (H eq_refl). lia.
Qed.

(** X7.  Whenever [decimate] returns on a queue of two or more functions
    of the caller, exactly [k = round(len * factor)] of its slots hold the
    no-op afterwards, no more and no fewer, and none holds [null]. *)
Theorem decimate_rewrites_exactly_k
    (fuel k : nat) (us : list A) (q' : list slot) :
  2 ≤ length us →
  decimate_by fuel k ((λ u, Some (User u)) <$> us) = Some q' →
  noops q' = k ∧ nulls q' = 0 ∧ length q' = length us.
Proof.
  intros Hlen. unfold decimate_by. set (q := (λ u, Some (User u)) <$> us).
  assert (Hq : length q = length us) by apply length_fmap.
  assert (Hu : ∀ j v, q !! j = Some v → ∃ u, v = Some (User u)).
  { intros j v. unfold q. rewrite list_lookup_fmap.
    destruct (us !! j) as [u|]; simpl; [|discriminate].
    intros [= <-]. eauto. }
  destruct (Nat.leb_spec (length q) 1) as [?|_]; [lia|].
  destruct (decimate_loop _ _ _ _ _ _) as [q1|] eqn:Hloop; [|discriminate].
  intros [= <-].
  pose proof (decimate_loop_count _ _ _ _ _ _ _ Hloop) as Hc.
  apply (decimate_loop_marked _ q) in Hloop; [|apply marked_from_refl].
  destruct Hloop as [Hl Hm].
  assert (Hf : functions q = length q).
  { pose proof (functions_nulls q) as Hfn.
    assert (nulls q = 0); [|lia].
    clear -Hu. induction q as [|v r IH]; [reflexivity|].
    destruct (Hu 0 v eq_refl) as [u ->]. simpl.
    apply IH. intros j. apply (Hu (S j)). }
  assert (Hn1 : noops q1 = 0).
  { apply noops_none. intros j Hj. destruct (Hm j) as [E|[_ E]].
    - rewrite E in Hj. destruct (Hu _ _ Hj) as [u [=]].
    - rewrite E in Hj. discriminate. }
  rewrite cleanup_sweeps.
  - destruct (swept_counts q1) as [Hs1 Hs2].
    pose proof (functions_nulls q1) as Hfn.
    rewrite Hs1, Hs2, length_fmap. repeat split; lia.
  - intros j Hj. destruct (Hm j) as [E|[Hlt _]]; [|lia].
    rewrite E in Hj. destruct (q !! j) as [v|] eqn:Ev; [|discriminate].
    destruct (Hu _ _ Ev) as [u ->]. discriminate.
Qed.

End Decimate.

(** Four functions and a factor of one half: two no-ops. *)
Lemma decimate_rewrites_exactly_k_witness :
  let q' := [Some Noop; Some (User 2); Some Noop; Some (User 4)] in
  decimate_by 4 2 ((λ u, Some (User u)) <$> [1; 2; 3; 4]) = Some q' ∧
  noops q' = 2 ∧ nulls q' = 0 ∧ length q' = 4.
Proof.
  intros q'.
  assert (H : decimate_by 4 2 ((λ u, Some (User u)) <$> [1; 2; 3; 4])
              = Some q') by reflexivity.
  split; [exact H|].
  apply (decimate_rewrites_exactly_k 4 2 [1; 2; 3; 4] q'); [simpl; lia|].
  exact H.
Defined.

End ConveyorBeltMore.

(** ** Thinking.js: cancel, done and repeated starts *)

Module ThinkingMore.

Import Thinking ThinkingProps.

Lemma clear_all_store (ids : list positive) (s : sys) :
  store (foldr clearTimeout s ids) = store s ∧
  listeners (foldr clearTimeout s ids) = listeners s ∧
  now (foldr clearTimeout s ids) = now s ∧
  fired (foldr clearTimeout s ids) = fired s.
Proof. induction ids as [|i ids IH]; simpl; [auto | exact IH]. Qed.

Lemma clear_all_timeouts (ids : list positive) (s : sys) (p : positive * Z) :
  p ∈ timeouts (foldr clearTimeout s ids) → p ∈ timeouts s ∧ p.1 ∉ ids.
Proof.
  induction ids as [|i ids IH]; simpl.
  - intros H. split; [exact H | apply not_elem_of_nil].
  - intros H. apply list_elem_of_filter in H as [Hne H].
    destruct (IH H) as [Hin Hnot]. split; [exact Hin|].
    intros Hc. apply elem_of_cons in Hc as [E|Hc]; auto.
Qed.

Lemma cancel_clears_tracked (s : sys) :
  tracked s → timeouts (cancelThinking s) = [].
Proof.
  intros Ht. unfold cancelThinking. cbn [set_store timeouts].
  destruct (timeouts (foldr clearTimeout s (default [] (outstanding (store s)))))
    as [|p r] eqn:E; [reflexivity|].
  assert (Hp : p ∈ p :: r) by left. rewrite <- E in Hp.
  apply clear_all_timeouts in Hp as [Hin Hnot].
  contradiction Hnot. apply Ht, Hin.
Qed.

Lemma tracked_resetTimeout (id : option positive) (cfg : settings) (s : sys) :
  tracked s → tracked (resetTimeout id cfg s).2.
Proof.
  intros Ht p. unfold resetTimeout, timeout, setTimeout.
  destruct id as [t|]; cbn.
  - intros Hp. apply elem_of_app in Hp as [Hp|Hp].
    + apply list_elem_of_filter in Hp as [Hne Hp].
      apply elem_of_app. left. apply list_elem_of_filter.
      split; [exact Hne | apply Ht, Hp].
    + apply list_elem_of_singleton in Hp as ->.
      apply elem_of_app. right. left.
  - intros Hp. apply elem_of_app in Hp as [Hp|Hp].
    + apply elem_of_app. left. apply Ht, Hp.
    + apply list_elem_of_singleton in Hp as ->.
      apply elem_of_app. right. left.
Qed.

Lemma tracked_dispatch (ev : string) (ls : list listener) :
  ∀ s, tracked s → tracked (dispatch ev ls s).2.
Proof.
  induction ls as [|l ls IH]; intros s Ht; [exact Ht|].
  cbn [dispatch]. destruct (bool_decide (ev ∈ events (config l))).
  - pose proof (tracked_resetTimeout (timerid l) (config l) s Ht) as H1.
    destruct (resetTimeout (timerid l) (config l) s) as [id s1].
    specialize (IH s1 H1). destruct (dispatch ev ls s1) as [ls' s2].
    exact IH.
  - specialize (IH s Ht). destruct (dispatch ev ls s) as [ls' s2]. exact IH.
Qed.

Lemma fire_due_outstanding (n : nat) (t : Z) :
  ∀ s, outstanding (store (fire_due n t s)) = outstanding (store s).
Proof.
  induction n as [|n IH]; intros s; simpl; [reflexivity|].
  destruct (earliest (timeouts s)) as [p|]; [|reflexivity].
  destruct (p.2 <=? t)%Z; [|reflexivity]. rewrite IH. reflexivity.
Qed.

Lemma tracked_perform (c : call) (s : sys) : tracked s → tracked (perform c s).
Proof.
  intros Ht. destruct c as [o|ev|t| |]; cbn [perform].
  - exact Ht.
  - unfold activity. pose proof (tracked_dispatch ev (listeners s) s Ht) as H.
    destruct (dispatch ev (listeners s) s) as [ls s1]. exact H.
  - intros p Hp. unfold advance in *. cbn in Hp |- *.
    rewrite fire_due_outstanding.
    destruct (fire_due_frame (length (timeouts s)) t s) as [_ Hsub].
    apply Ht, Hsub, Hp.
  - intros p Hp. rewrite (cancel_clears_tracked s Ht) in Hp.
    inversion Hp.
  - intros p Hp. unfold doneThinking in Hp. cbn in Hp.
    fold (cancelThinking s) in Hp.
    change (timeouts (cancelThinking s)) with
      (timeouts (foldr clearTimeout s (default [] (outstanding (store s)))))
      in Hp.
    pose proof (cancel_clears_tracked s Ht) as Hc.
    unfold cancelThinking in Hc. cbn in Hc. rewrite Hc in Hp. inversion Hp.
Qed.

Lemma tracked_performs (cs : list call) :
  ∀ s, tracked s → tracked (performs cs s).
Proof.
  induction cs as [|c cs IH]; intros s Ht; [exact Ht|].
  apply IH, tracked_perform, Ht.
Qed.

Lemma advance_idle (T : Z) (s : sys) :
  timeouts s = [] → fired (advance T s) = fired s.
Proof. intros H. unfold advance. rewrite H. reflexivity. Qed.

(** X8.  After any sequence of starts, events, clock ticks, cancels and
    dones on a fresh subject, ['cancel'] leaves no timer pending, so no
    idle notification fires afterwards however long the clock runs; the
    same holds for ['done']. *)
Theorem cancel_leaves_nothing_pending (cs : list call) (t0 T : Z) :
  let s := performs cs (untouched t0) in
  timeouts (cancelThinking s) = [] ∧
  fired (advance T (cancelThinking s)) = fired s ∧
  timeouts (doneThinking s) = [] ∧
  fired (advance T (doneThinking s)) = fired s.
Proof.
  intros s.
  assert (Ht : tracked s).
  { apply tracked_performs. intros p Hp. inversion Hp. }
  pose proof (cancel_clears_tracked s Ht) as Hc.
  assert (Hf : fired (cancelThinking s) = fired s).
  { unfold cancelThinking. cbn. apply clear_all_store. }
  assert (Hd : timeouts (doneThinking s) = []) by exact Hc.
  split; [exact Hc|]. split; [|split; [exact Hd|]].
  - rewrite advance_idle by exact Hc. exact Hf.
  - rewrite advance_idle by exact Hd. exact Hf.
Qed.

(** X9.  ['cancel'] removes the reset time but neither the state nor the
    handlers: a subject that was running still answers true to ['running']
    and now answers [NaN] to ['elapsed'], and its listeners are all still
    installed. *)
Theorem cancel_keeps_running (s : sys) :
  running (cancelThinking s) = running s ∧
  elapsed (cancelThinking s) = (if running s then NaN else Undefined) ∧
  listeners (cancelThinking s) = listeners s ∧
  lastreset (store (cancelThinking s)) = None ∧
  outstanding (store (cancelThinking s)) = None.
Proof.
  destruct (clear_all_store (default [] (outstanding (store s))) s)
    as (Hs & Hl & _ & _).
  assert (Hr : running (cancelThinking s) = running s).
  { unfold running, cancelThinking. cbn. rewrite Hs. reflexivity. }
  split; [exact Hr|]. split; [|split; [exact Hl | split; reflexivity]].
  unfold elapsed. rewrite Hr. destruct (running s); reflexivity.
Qed.

Lemma play_unheard (ev : string) (gaps : list nat) :
  ∀ s, listeners s = [] → timeouts s = [] →
       store (play ev gaps s) = store s ∧
       listeners (play ev gaps s) = [] ∧
       timeouts (play ev gaps s) = [] ∧
       fired (play ev gaps s) = fired s.
Proof.
  induction gaps as [|g gaps IH]; intros s Hl Ht; [auto|].
  cbn [play].
  assert (E : activity ev (advance (now s + Z.of_nat g) s)
              = Sys (Z.max (now s) (now s + Z.of_nat g)) [] (fresh s)
                    (store s) [] (fired s)).
  { unfold advance. rewrite Ht. cbn [length fire_due].
    unfold activity. rewrite Hl, Ht. reflexivity. }
  rewrite E. apply (IH (Sys _ [] (fresh s) (store s) [] (fired s)));
    reflexivity.
Qed.

(** X10.  ['done'] ends it all.  After any sequence of starts, events,
    clock ticks, cancels and dones on a fresh subject, ['done'] removes
    the subject's data, the handlers and every pending timer, so that
    ['running'] answers false, ['elapsed'] [undefined], and the events and
    the time that follow bring no idle notification and no new state. *)
Theorem done_forgets_everything
    (cs : list call) (t0 : Z) (ev : string) (gaps : list nat) :
  let s := performs cs (untouched t0) in
  let s' := play ev gaps (doneThinking s) in
  store s' = Data None None None ∧
  running s' = false ∧
  elapsed s' = Undefined ∧
  listeners s' = [] ∧
  timeouts s' = [] ∧
  fired s' = fired s.
Proof.
  intros s s'.
  assert (Ht : tracked s).
  { apply tracked_performs. intros p Hp. inversion Hp. }
  assert (Hd : timeouts (doneThinking s) = [])
    by exact (cancel_clears_tracked s Ht).
  assert (Hf : fired (doneThinking s) = fired s).
  { unfold doneThinking, cancelThinking. cbn. apply clear_all_store. }
  destruct (play_unheard ev gaps (doneThinking s) eq_refl Hd)
    as (Hs & Hl & Hto & Hfi).
  fold s' in Hs, Hl, Hto, Hfi.
  assert (Hst : store s' = Data None None None) by (rewrite Hs; reflexivity).
  split; [exact Hst|]. unfold elapsed, running. rewrite Hst.
  repeat split; [exact Hl | exact Hto | congruence].
Qed.

(** X11.  One start and one activity event: for as long as the idle delay
    has not passed the subject is running and ['elapsed'] is the time
    since the event; from the moment it has passed, the idle notification
    has fired once, at the event's time plus the delay, ['running'] is
    false and ['elapsed'] is [undefined]. *)
Theorem active_until_the_delay_passes (d t0 : Z) (g e : nat) :
  let s := play "keydown" [g]
             (startThinking (Options (Some d) None) (untouched t0)) in
  let s' := advance (now s + Z.of_nat e) s in
  now s = (t0 + Z.of_nat g)%Z ∧
  if (Z.of_nat e <? Z.max 0 d)%Z
  then running s' = true ∧ elapsed s' = Num (Z.of_nat e) ∧ fired s' = []
  else running s' = false ∧ elapsed s' = Undefined ∧
       fired s' = [(now s + Z.max 0 d)%Z].
Proof.
  intros s s'.
  set (t1 := Z.max t0 (t0 + Z.of_nat g)).
  assert (Es : s = Sys t1 [(1%positive, (t1 + Z.max 0 d)%Z)] 2
                       (Data (Some StActive) (Some t1) (Some [1%positive]))
                       [Listener (Settings d (events defaults))
                                 (Some 1%positive)] [])
    by reflexivity.
  assert (Ht : t1 = (t0 + Z.of_nat g)%Z) by (unfold t1; lia).
  split; [rewrite Es; exact Ht|].
  unfold s'. rewrite Es. unfold advance.
  cbn [timeouts length fire_due earliest now snd].
  destruct (Z.ltb_spec (Z.of_nat e) (Z.max 0 d)) as [Hlt|Hge].
  - destruct (Z.leb_spec (t1 + Z.max 0 d) (t1 + Z.of_nat e)) as [?|_];
      [lia|].
    unfold elapsed, running. cbn. repeat split. f_equal. lia.
  - destruct (Z.leb_spec (t1 + Z.max 0 d) (t1 + Z.of_nat e)) as [_|?];
      [|lia].
    unfold elapsed, running, fire. cbn. repeat split.
    rewrite Z.max_r by lia. reflexivity.
Qed.

(** *** Starting more than once *)

Lemma filter_all {X} (P : X → Prop) `{∀ x, Decision (P x)} (l : list X) :
  (∀ x, x ∈ l → P x) → filter P l = l.
Proof.
  induction l as [|x l IH]; intros Hl; [reflexivity|].
  rewrite filter_cons_True by (apply Hl; left).
  f_equal. apply IH. intros y Hy. apply Hl. right. exact Hy.
Qed.

Lemma filter_one (l : list (positive * Z)) (p : positive * Z) :
  NoDup l.*1 → p ∈ l →
  length (filter (λ x, x.1 ≠ p.1) l) + 1 = length l ∧
  NoDup (filter (λ x, x.1 ≠ p.1) l).*1 ∧
  (∀ x, x ∈ filter (λ x, x.1 ≠ p.1) l → x ∈ l).
Proof.
  intros Hnd Hp. split; [|split].
  - induction l as [|x l IH]; [inversion Hp|].
    rewrite fmap_cons in Hnd. apply NoDup_cons in Hnd as [Hx Hnd].
    apply elem_of_cons in Hp as [->|Hp].
    + rewrite filter_cons_False by (intros H; apply H; reflexivity).
      rewrite filter_all; [simpl; lia|].
      intros y Hy E. apply Hx. rewrite <- E.
      apply list_elem_of_fmap. exists y. auto.
    + rewrite filter_cons_True.
      * simpl. rewrite <- (IH Hnd Hp). lia.
      * intros E. apply Hx. rewrite E.
        apply list_elem_of_fmap. exists p. auto.
  - apply (sublist_NoDup _ l.*1); [exact Hnd|].
    apply fmap_sublist, sublist_filter.
  - intros x Hx. apply list_elem_of_filter in Hx. tauto.
Qed.

Lemma earliest_in (l : list (positive * Z)) :
  l ≠ [] → ∃ p, earliest l = Some p ∧ p ∈ l.
Proof.
  induction l as [|x l IH]; [congruence|]. intros _. simpl.
  destruct l as [|y l'].
  - exists x. split; [reflexivity | left].
  - destruct IH as (p & -> & Hp); [discriminate|].
    destruct (p.2 <? x.2)%Z; eexists; split; try reflexivity;
      [right; exact Hp | left].
Qed.

(** Timers that are all due at [D], no later than [T], all go off. *)
Lemma fire_due_all (D T : Z) (n : nat) :
  ∀ s, length (timeouts s) = n → NoDup (timeouts s).*1 →
       (∀ p, p ∈ timeouts s → p.2 = D) → (now s ≤ D)%Z → (D ≤ T)%Z →
       timeouts (fire_due n T s) = [] ∧
       fired (fire_due n T s) = fired s ++ replicate n D.
Proof.
  induction n as [|n IH]; intros s Hlen Hnd Hdue Hnow HT.
  - simpl. rewrite app_nil_r. split; [|reflexivity].
    destruct (timeouts s); [reflexivity | discriminate].
  - destruct (earliest_in (timeouts s)) as (p & He & Hp).
    { intros E. rewrite E in Hlen. discriminate. }
    cbn [fire_due]. rewrite He.
    pose proof (Hdue p Hp) as Hd.
    destruct (Z.leb_spec (p.2) T) as [_|?]; [|lia].
    destruct (filter_one (timeouts s) p Hnd Hp) as (Hl & Hn & Hsub).
    destruct (IH (fire p s)) as [Ht Hf].
    + cbn. lia.
    + exact Hn.
    + intros x Hx. apply Hdue, Hsub, Hx.
    + cbn. lia.
    + exact HT.
    + split; [exact Ht|]. rewrite Hf. cbn.
      rewrite Hd, Z.max_r by lia. rewrite <- app_assoc. reflexivity.
Qed.

Lemma starts_listeners (o : options) (t0 : Z) (n : nat) :
  Nat.iter n (startThinking o) (untouched t0)
  = Sys t0 [] 1 (Data None None None)
        (replicate n (Listener (extend defaults o) None)) [].
Proof.
  induction n as [|n IH]; [reflexivity|].
  rewrite Nat.iter_succ, IH. unfold startThinking, set_listeners. cbn.
  f_equal. symmetry. apply replicate_S_end.
Qed.

(** Listeners that hold no timer yet each set one of their own. *)
Lemma dispatch_new (ev : string) (cfg : settings) (n : nat) :
  ev ∈ events cfg →
  ∀ s, NoDup (timeouts s).*1 →
       (∀ p, p ∈ timeouts s →
             p.2 = (now s + Z.max 0 (idle cfg))%Z ∧ (p.1 < fresh s)%positive) →
       let r := dispatch ev (replicate n (Listener cfg None)) s in
       length (r.1) = n ∧
       length (timeouts (r.2)) = length (timeouts s) + n ∧
       NoDup (timeouts (r.2)).*1 ∧
       (∀ p, p ∈ timeouts (r.2) → p.2 = (now s + Z.max 0 (idle cfg))%Z) ∧
       now (r.2) = now s ∧ fired (r.2) = fired s.
Proof.
  intros Hev. induction n as [|n IH]; intros s Hnd Hall.
  - simpl. repeat split; auto. intros p Hp. apply Hall, Hp.
  - cbn [replicate dispatch config timerid].
    rewrite bool_decide_eq_true_2 by exact Hev.
    set (s1 := Sys (now s)
                 (timeouts s ++ [(fresh s, (now s + Z.max 0 (idle cfg))%Z)])
                 (fresh s + 1)%positive
                 (Data (Some StActive) (Some (now s))
                       (Some (default [] (outstanding (store s)) ++ [fresh s])))
                 (listeners s) (fired s)).
    change (resetTimeout None cfg s) with (fresh s, s1).
    cbn zeta iota beta.
    specialize (IH s1).
    destruct (dispatch ev (replicate n (Listener cfg None)) s1)
      as [ls' s2] eqn:E.
    destruct IH as (H1 & H2 & H3 & H4 & H5 & H6).
    + subst s1. cbn [timeouts]. rewrite fmap_app. apply NoDup_app.
      split; [exact Hnd|]. split; [|apply NoDup_singleton].
      intros x Hx Hx'. apply list_elem_of_singleton in Hx'. subst x.
      apply list_elem_of_fmap in Hx as (p & Ep & Hp).
      destruct (Hall p Hp) as [_ Hlt]. rewrite <- Ep in Hlt.
      simpl in Hlt. lia.
    + subst s1. cbn [timeouts now fresh]. intros p Hp.
      apply elem_of_app in Hp as [Hp|Hp].
      * destruct (Hall p Hp). split; [assumption | lia].
      * apply list_elem_of_singleton in Hp. subst p. simpl. split; [reflexivity | lia].
    + cbn [fst snd] in *. subst s1. cbn [timeouts now fired] in *.
      rewrite length_app in H2. cbn [length] in *.
      repeat split; auto; lia.
Qed.

(** X12.  Starts are not deduplicated: after [n] calls of ['start'] one
    activity event sets [n] timers, one for each handler installed, and
    when the idle delay has passed the idle notification fires [n]
    times. *)
Theorem every_start_fires_again (n extra : nat) (d t0 : Z) :
  let s := activity "keydown"
             (Nat.iter n (startThinking (Options (Some d) None))
                       (untouched t0)) in
  let D := (t0 + Z.max 0 d)%Z in
  length (listeners s) = n ∧
  length (timeouts s) = n ∧
  fired (advance (D + Z.of_nat extra) s) = replicate n D.
Proof.
  intros s D. unfold s. rewrite starts_listeners. unfold activity.
  cbn [listeners].
  pose proof (dispatch_new "keydown" (extend defaults (Options (Some d) None))
                n) as H.
  specialize (H ltac:(simpl; left)
                (Sys t0 [] 1 (Data None None None)
                     (replicate n (Listener (extend defaults
                                               (Options (Some d) None)) None))
                     [])).
  destruct (dispatch _ _ _) as [ls s1].
  destruct H as (H1 & H2 & H3 & H4 & H5 & H6).
  { constructor. }
  { intros p Hp. inversion Hp. }
  cbn [fst snd timeouts now fired length idle extend default opt_idle] in *.
  split; [exact H1|]. split; [exact H2|].
  set (s' := set_listeners ls s1).
  destruct (fire_due_all D (D + Z.of_nat extra) n s') as [_ Hf];
    try (subst s'; cbn [set_listeners timeouts now]; auto; lia).
  unfold advance. cbn [fired].
  change (timeouts s') with (timeouts s1). rewrite H2, Nat.add_0_l, Hf.
  subst s'. cbn [set_listeners fired]. rewrite H6. reflexivity.
Qed.

End ThinkingMore.

(** ** Conditional.js: the tests and the Conditional object *)

Module ConditionalMore.

Import Conditional.

Lemma truthy_js_and (a b : value) :
  truthy (js_and a b) = truthy a && truthy b.
Proof. unfold js_and. destruct (truthy a) eqn:E; [reflexivity | exact E]. Qed.

Lemma truthy_js_or (a b : value) :
  truthy (js_or a b) = truthy a || truthy b.
Proof. unfold js_or. destruct (truthy a) eqn:E; [exact E | reflexivity]. Qed.

Lemma truthy_reduce_and (values : list value) :
  ∀ a, truthy (reduce js_and a values) = truthy a && forallb truthy values.
Proof.
  unfold reduce. induction values as [|v values IH]; intros a; simpl.
  - rewrite andb_true_r. reflexivity.
  - rewrite IH, truthy_js_and, andb_assoc. reflexivity.
Qed.

(** X13.  [Conditional.and] gives a truthy result exactly when every
    condition of the map is truthy; on the empty map it gives [true]. *)
Theorem and_is_the_conjunction (conds data : object) :
  (truthy (Conditional.and conds data) = true ↔
   ∀ key, key ∈ Object_keys conds → truthy (get conds key) = true) ∧
  Conditional.and [] data = VBool true.
Proof.
  split; [|reflexivity].
  unfold Conditional.and. rewrite truthy_reduce_and. simpl.
  unfold values_of. rewrite forallb_forall. split.
  - intros H key Hk. apply H. apply list_elem_of_In.
    apply list_elem_of_fmap. exists key. auto.
  - intros H v Hv. apply list_elem_of_In in Hv.
    apply list_elem_of_fmap in Hv as (key & -> & Hk). apply H, Hk.
Qed.

Lemma truthy_xor_step (a b : value) :
  truthy (js_and (js_not (js_and a b)) (js_or a b))
  = xorb (truthy a) (truthy b).
Proof.
  rewrite truthy_js_and, truthy_js_or. unfold js_not. cbn [truthy].
  rewrite truthy_js_and. destruct (truthy a), (truthy b); reflexivity.
Qed.

Lemma truthy_reduce_xor (values : list value) :
  ∀ a, truthy (reduce (λ a b, js_and (js_not (js_and a b)) (js_or a b))
                      a values)
       = xorb (truthy a) (Nat.odd (truthy_count values)).
Proof.
  unfold reduce, truthy_count.
  induction values as [|v values IH]; intros a; simpl.
  - rewrite xorb_false_r. reflexivity.
  - rewrite IH, truthy_xor_step. destruct (truthy v); simpl.
    + rewrite Nat.odd_succ, <- Nat.negb_odd.
      destruct (truthy a), (Nat.odd _); reflexivity.
    + rewrite xorb_false_r. reflexivity.
Qed.

(** X14.  [Conditional.xor] starts its fold from [true], so its result is
    truthy exactly when an even number of conditions are truthy: it is
    [true] on the empty map and falsy on a map with one true condition. *)
Theorem xor_counts_parity (conds data : object) (name : string) :
  truthy (xor conds data) = Nat.even (truthy_count (values_of conds)) ∧
  xor [] data = VBool true ∧
  xor [(name, VBool true)] data = VBool false.
Proof.
  split; [|split].
  - unfold xor. rewrite truthy_reduce_xor. simpl.
    rewrite <- Nat.negb_odd. reflexivity.
  - reflexivity.
  - unfold xor, values_of. simpl. rewrite bool_decide_eq_true_2 by reflexivity.
    reflexivity.
Qed.

(** X15.  [Conditional.nand] is truthy exactly when some condition is not,
    and [Conditional.nor], negating an [or] that is always [true], gives
    [false] on every map. *)
Theorem nand_negates_and_nor_is_false (conds data : object) :
  nand conds data = VBool (negb (forallb truthy (values_of conds))) ∧
  nor conds data = VBool false.
Proof.
  split.
  - unfold nand, js_not, Conditional.and. rewrite truthy_reduce_and.
    reflexivity.
  - unfold nor, Conditional.or.
    rewrite ConditionalProps.reduce_or_true. reflexivity.
Qed.

(** *** Setting and removing conditions *)






Section Object.

Context {W : Type}.

Local Abbreviation conditional := (@conditional W).




End Object.




End ConditionalMore.

(** ** Attention.js: on and off *)

Module AttentionProps.

Import Attention.

(** X19.  [off(action, fn)] takes every registration of [fn] out of the
    action's list and keeps the other functions in their order;
    [off(action)] empties the list; neither touches another action. *)
Theorem off_removes_registrations
    (action other : string) (fn : nat) (callbacks : gmap string (list nat)) :
  registered (off action (Some fn) callbacks) action
    = filter (λ elem, elem ≠ fn) (registered callbacks action) ∧
  registered (off action None callbacks) action = [] ∧
  (other ≠ action →
   ∀ f, registered (off action f callbacks) other
        = registered callbacks other).
Proof.
  unfold registered, off. split; [|split].
  - destruct (callbacks !! action) as [l|] eqn:E.
    + rewrite lookup_insert_eq. reflexivity.
    + rewrite E. reflexivity.
  - destruct (callbacks !! action) as [l|] eqn:E.
    + rewrite lookup_insert_eq. reflexivity.
    + rewrite E. reflexivity.
  - intros Hne f. destruct (callbacks !! action) as [l|]; [|reflexivity].
    destruct f; rewrite lookup_insert_ne by congruence; reflexivity.
Qed.


Lemma off_removes_registrations_witness :
  registered (off "show" (Some 7) (on "dismiss" 7 (on "show" 7 ∅))) "dismiss"
  = [7].
Proof.
  destruct (off_removes_registrations "show" "dismiss" 7
              (on "dismiss" 7 (on "show" 7 ∅))) as (_ & _ & H).
  rewrite H by discriminate. reflexivity.
Defined.


End AttentionProps.

(** ** Thinking.js: namespaceEvents *)

Module ThinkingNames.

Import Thinking.
Import Stdlib.Strings.Ascii.

Lemma trim_left_kept (s : list ascii) :
  match s with c :: _ => is_space c = false | [] => True end →
  trim_left s = s.
Proof. destruct s as [|c r]; [reflexivity|]. simpl. intros ->. reflexivity. Qed.

(** A string that neither starts nor ends with white space is its own
    trim, and loses a single space put after it. *)
Lemma trim_tight (c c' : ascii) (r r' : list ascii) (s : list ascii) :
  s = c :: r → s = r' ++ [c'] → is_space c = false → is_space c' = false →
  trim s = s ∧ trim (s ++ [" "%char]) = s.
Proof.
  intros Hs Hs' Hc Hc'. unfold trim. split.
  - rewrite (trim_left_kept s) by (rewrite Hs; exact Hc).
    rewrite trim_left_kept; [apply reverse_involutive|].
    rewrite Hs', reverse_snoc. exact Hc'.
  - rewrite (trim_left_kept (s ++ _)) by (rewrite Hs; exact Hc).
    rewrite reverse_snoc. cbn [trim_left is_space stdpp.strings.Ascii.is_space].
    rewrite trim_left_kept; [apply reverse_involutive|].
    rewrite Hs', reverse_snoc. exact Hc'.
Qed.

Lemma strip_other (c : ascii) (r : list ascii) :
  c ≠ "."%char → strip 0 (c :: r) = c :: strip 0 r.
Proof.
  intros Hc. cbn [strip str String.list_ascii_of_string is_prefix].
  rewrite (proj2 (Ascii.eqb_neq _ _)) by congruence. reflexivity.
Qed.

Lemma strip_no_dot (s : list ascii) :
  Forall (λ c, c ≠ "."%char) s → strip 0 s = s.
Proof.
  induction 1 as [|c r Hc _ IH]; [reflexivity|].
  rewrite strip_other, IH by exact Hc. reflexivity.
Qed.

Lemma strip_tagged (w rest : list ascii) :
  Forall (λ c, c ≠ "."%char) w →
  strip 0 (w ++ str ".thinking-trigger" ++ rest) = w ++ strip 0 rest.
Proof.
  induction 1 as [|c r Hc _ IH]; [reflexivity|].
  rewrite <- !app_comm_cons, strip_other, IH by exact Hc. reflexivity.
Qed.

Lemma split_spaces_nonempty (b : bool) (s : list ascii) :
  split_spaces b s ≠ [].
Proof.
  revert b. induction s as [|c r IH]; intros b; simpl; [discriminate|].
  destruct (is_space c).
  - destruct b; [apply IH | discriminate].
  - destruct (split_spaces false r); discriminate.
Qed.

Lemma split_spaces_word (w rest : list ascii) :
  Forall (λ c, is_space c = false) w →
  ∀ b, w ≠ [] ∨ b = false →
  split_spaces b (w ++ rest)
  = (w ++ hd [] (split_spaces false rest)) :: tl (split_spaces false rest).
Proof.
  induction 1 as [|c r Hc Hr IH]; intros b Hb.
  - destruct Hb as [?| ->]; [congruence|]. simpl.
    pose proof (split_spaces_nonempty false rest).
    destruct (split_spaces false rest); [congruence | reflexivity].
  - cbn [app split_spaces]. rewrite Hc.
    rewrite (IH false) by (right; reflexivity). reflexivity.
Qed.

Lemma split_spaces_run (c : ascii) (r : list ascii) :
  is_space c = false → split_spaces true (c :: r) = split_spaces false (c :: r).
Proof. intros Hc. simpl. rewrite Hc. reflexivity. Qed.

Lemma plain_parts (w : list ascii) :
  plain w →
  Forall (λ c, is_space c = false) w ∧ Forall (λ c, c ≠ "."%char) w ∧
  ∃ c r r' c', w = c :: r ∧ w = r' ++ [c'] ∧
               is_space c = false ∧ is_space c' = false.
Proof.
  intros [Hne Hall]. split; [|split].
  - eapply Forall_impl; [exact Hall|]. intros c [H _]. exact H.
  - eapply Forall_impl; [exact Hall|]. intros c [_ H]. exact H.
  - destruct w as [|c r]; [congruence|].
    destruct (exists_last Hne) as (r' & c' & E).
    exists c, r, r', c'. split; [reflexivity|]. split; [exact E|].
    split.
    + apply Forall_cons in Hall as [[H _] _]. exact H.
    + rewrite E in Hall. apply Forall_app in Hall as [_ H].
      apply Forall_cons in H as [[H _] _]. exact H.
Qed.

(** Words that start and end with something other than white space, put
    one space apart, start and end so too. *)
Lemma spaced_edges (ws : list (list ascii)) :
  ws ≠ [] →
  Forall (λ w, ∃ c r r' c', w = c :: r ∧ w = r' ++ [c'] ∧
                            is_space c = false ∧ is_space c' = false) ws →
  ∃ c r r' c', spaced ws = c :: r ∧ spaced ws = r' ++ [c'] ∧
               is_space c = false ∧ is_space c' = false.
Proof.
  intros Hne Hall. induction Hall as [|w ws Hw Hws IH]; [congruence|].
  destruct ws as [|w2 ws]; [exact Hw|].
  destruct IH as (c2 & r2 & r2' & c2' & E1 & E2 & H1 & H2); [discriminate|].
  destruct Hw as (c & r & r' & c' & Ew & _ & Hc & _).
  exists c, (r ++ " "%char :: spaced (w2 :: ws)),
         (w ++ " "%char :: r2'), c2'.
  change (spaced (w :: w2 :: ws)) with (w ++ " "%char :: spaced (w2 :: ws)).
  split; [rewrite Ew; reflexivity|]. split; [|auto].
  rewrite E2 at 1. rewrite <- app_assoc. reflexivity.
Qed.

Lemma spaced_split (ws : list (list ascii)) :
  ws ≠ [] → Forall plain ws → split_spaces false (spaced ws) = ws.
Proof.
  intros Hne Hall. induction Hall as [|w ws Hw Hws IH]; [congruence|].
  destruct (plain_parts w Hw) as (Hsp & _ & _).
  destruct ws as [|w2 ws].
  - cbn [spaced]. rewrite <- (app_nil_r w) at 1.
    rewrite split_spaces_word by (auto; right; reflexivity).
    cbn. rewrite app_nil_r. reflexivity.
  - change (spaced (w :: w2 :: ws)) with (w ++ " "%char :: spaced (w2 :: ws)).
    rewrite split_spaces_word by (auto; right; reflexivity).
    destruct (spaced_edges (w2 :: ws)) as (c & r & _ & _ & E & _ & Hc & _);
      [discriminate | |].
    { eapply Forall_impl; [exact Hws|]. intros x Hx.
      apply (plain_parts x Hx). }
    change (split_spaces false (" "%char :: spaced (w2 :: ws)))
      with ([] :: split_spaces true (spaced (w2 :: ws))).
    rewrite E, split_spaces_run by exact Hc. rewrite <- E.
    rewrite IH by discriminate. cbn. rewrite app_nil_r. reflexivity.
Qed.

Lemma foldl_tags (ws : list (list ascii)) :
  ∀ acc, foldl (λ acc item, acc ++ item ++ str ".thinking-trigger ") acc ws
         = acc ++ concat ((λ w, w ++ str ".thinking-trigger ") <$> ws).
Proof.
  induction ws as [|w ws IH]; intros acc; simpl.
  - rewrite app_nil_r. reflexivity.
  - rewrite IH, <- app_assoc. reflexivity.
Qed.

Lemma concat_tags (ws : list (list ascii)) :
  ws ≠ [] →
  concat ((λ w, w ++ str ".thinking-trigger ") <$> ws)
  = spaced ((λ w, w ++ str ".thinking-trigger") <$> ws) ++ [" "%char].
Proof.
  intros Hne. induction ws as [|w ws IH]; [congruence|].
  assert (Hs : ∀ x, x ++ str ".thinking-trigger "
                    = (x ++ str ".thinking-trigger") ++ [" "%char]).
  { intros x. rewrite <- app_assoc. reflexivity. }
  destruct ws as [|w2 ws].
  - simpl. rewrite app_nil_r. apply Hs.
  - rewrite fmap_cons. cbn [concat]. rewrite IH by discriminate.
    rewrite !fmap_cons.
    change (spaced (?a :: ?b :: ?c)) with (a ++ " "%char :: spaced (b :: c)).
    rewrite Hs, <- !app_assoc. reflexivity.
Qed.

Lemma tagged_edges (w : list ascii) :
  plain w →
  ∃ c r r' c', w ++ str ".thinking-trigger" = c :: r ∧
               w ++ str ".thinking-trigger" = r' ++ [c'] ∧
               is_space c = false ∧ is_space c' = false.
Proof.
  intros Hw. destruct (plain_parts w Hw) as (_ & _ & c & r & _ & _ & E & _ & Hc & _).
  exists c, (r ++ str ".thinking-trigger"),
         (w ++ str ".thinking-trigge"), "r"%char.
  split; [rewrite E; reflexivity|]. split; [|auto].
  rewrite <- app_assoc. reflexivity.
Qed.

Lemma spaced_no_dot (ws : list (list ascii)) :
  Forall plain ws → Forall (λ c, c ≠ "."%char) (spaced ws).
Proof.
  induction 1 as [|w ws Hw Hws IH]; [constructor|].
  destruct (plain_parts w Hw) as (_ & Hd & _).
  destruct ws as [|w2 ws]; [exact Hd|].
  change (spaced (w :: w2 :: ws)) with (w ++ " "%char :: spaced (w2 :: ws)).
  apply Forall_app. split; [exact Hd|].
  apply Forall_cons. split; [discriminate | exact IH].
Qed.

Lemma spaced_cons (w : list ascii) (ws : list (list ascii)) :
  ws ≠ [] → spaced (w :: ws) = w ++ " "%char :: spaced ws.
Proof. destruct ws; [congruence | reflexivity]. Qed.

Lemma strip_spaced_tagged (ws : list (list ascii)) :
  Forall plain ws →
  strip 0 (spaced ((λ w, w ++ str ".thinking-trigger") <$> ws)) = spaced ws.
Proof.
  induction 1 as [|w ws Hw Hws IH]; [reflexivity|].
  destruct (plain_parts w Hw) as (_ & Hd & _).
  destruct ws as [|w2 ws].
  - cbn [fmap list_fmap spaced].
    rewrite <- (app_nil_r (str ".thinking-trigger")).
    rewrite strip_tagged by exact Hd. apply app_nil_r.
  - rewrite fmap_cons. rewrite spaced_cons by discriminate.
    rewrite <- app_assoc, strip_tagged by exact Hd.
    rewrite strip_other by discriminate.
    rewrite IH. reflexivity.
Qed.

(** What the function makes of plain names once they are split. *)
Lemma tags_joined (ws : list (list ascii)) :
  ws ≠ [] → Forall plain ws →
  trim (foldl (λ acc item, acc ++ item ++ str ".thinking-trigger ")
              [] (split_spaces false (spaced ws)))
  = spaced ((λ w, w ++ str ".thinking-trigger") <$> ws).
Proof.
  intros Hne Hall.
  rewrite spaced_split, foldl_tags, app_nil_l, concat_tags by assumption.
  destruct (spaced_edges ((λ w, w ++ str ".thinking-trigger") <$> ws))
    as (c & r & r' & c' & E1 & E2 & H1 & H2).
  - destruct ws; [congruence | discriminate].
  - apply Forall_fmap. eapply Forall_impl; [exact Hall|].
    intros w Hw. apply tagged_edges, Hw.
  - apply (trim_tight c c' r r' _ E1 E2 H1 H2).
Qed.

(** X21.  Plain event names one space apart each get the namespace
    [.thinking-trigger] and stay in their order, one space apart; and names
    that already carry it are not given it a second time. *)
Theorem namespaceEvents_tags_each_name (ws : list (list ascii)) :
  ws ≠ [] → Forall plain ws →
  let tagged := spaced ((λ w, w ++ str ".thinking-trigger") <$> ws) in
  namespaceEvents (spaced ws) = tagged ∧
  namespaceEvents tagged = tagged.
Proof.
  intros Hne Hall tagged.
  assert (Hp : Forall (λ w, ∃ c r r' c', w = c :: r ∧ w = r' ++ [c'] ∧
                         is_space c = false ∧ is_space c' = false) ws).
  { eapply Forall_impl; [exact Hall|]. intros w Hw. apply (plain_parts w Hw). }
  split; unfold namespaceEvents.
  - destruct (spaced_edges ws Hne Hp) as (c & r & r' & c' & E1 & E2 & H1 & H2).
    rewrite (proj1 (trim_tight c c' r r' _ E1 E2 H1 H2)).
    rewrite strip_no_dot by (apply spaced_no_dot, Hall).
    rewrite tags_joined by assumption.
    rewrite E1. reflexivity.
  - destruct (spaced_edges ((λ w, w ++ str ".thinking-trigger") <$> ws))
      as (c & r & r' & c' & E1 & E2 & H1 & H2).
    { destruct ws; [congruence | discriminate]. }
    { apply Forall_fmap. eapply Forall_impl; [exact Hall|].
      intros w Hw. apply tagged_edges, Hw. }
    fold tagged in E1, E2.
    rewrite (proj1 (trim_tight c c' r r' _ E1 E2 H1 H2)).
    unfold tagged at 2. rewrite strip_spaced_tagged by exact Hall.
    rewrite tags_joined by assumption.
    fold tagged. rewrite E1. reflexivity.
Qed.

(** X22.  A specifier that is empty or all white space gives the empty
    string: no event name, and so no handler, comes of it. *)
Theorem namespaceEvents_blank (s : list ascii) :
  Forall (λ c, is_space c = true) s → namespaceEvents s = [].
Proof.
  intros Hs. unfold namespaceEvents, trim.
  assert (E : trim_left s = []).
  { induction Hs as [|c r Hc _ IH]; [reflexivity|].
    simpl. rewrite Hc. exact IH. }
  rewrite E. reflexivity.
Qed.

Lemma namespaceEvents_tags_each_name_witness :
  namespaceEvents (str "keydown keypress mousedown")
  = str "keydown.thinking-trigger keypress.thinking-trigger mousedown.thinking-trigger".
Proof.
  apply (namespaceEvents_tags_each_name
           [str "keydown"; str "keypress"; str "mousedown"]);
    [discriminate|].
  repeat first [constructor | discriminate].
Defined.

Lemma namespaceEvents_blank_witness :
  namespaceEvents (str "   ") = [].
Proof.
  apply namespaceEvents_blank. repeat constructor.
Defined.

End ThinkingNames.
